(** * Verification of [pkg/gui/boxlayout]: the box layout arranger

    Shallow embedding of [boxlayout.go] and proofs of the properties its
    specification states.

    Modelling conventions.
    - Go's [int] is the 64-bit two's-complement integer of the 64-bit
      targets: a value is a [Z] in [[int_min, int_max]] and every
      arithmetic operation wraps ([wrap]).
    - [*Box] pointers are modelled by the boxes they point to, a box tree
      being finite and without nil nodes; a nil function field is [None].
    - A Go run-time panic is [None]: the only operation of this file that
      can panic on well-formed boxes is the integer division.
    - [map[string]Dimensions] is [gmap string Dimensions]. *)

From Stdlib Require Import ZArith Lia.
From stdpp Require Import base option list gmap strings fin_maps.

Open Scope Z_scope.

Module Boxlayout.

(** ** Machine integers *)

Definition int_min : Z := - 2 ^ 63.
Definition int_max : Z := 2 ^ 63 - 1.

Definition in_int (z : Z) : Prop := int_min ≤ z ≤ int_max.

(** Two's-complement wrap-around of a mathematical integer. *)
Definition wrap (z : Z) : Z := (z + 2 ^ 63) mod 2 ^ 64 - 2 ^ 63.

Definition add (a b : Z) : Z := wrap (a + b).
Definition sub (a b : Z) : Z := wrap (a - b).
Definition mul (a b : Z) : Z := wrap (a * b).

(** [a / b] and [a % b] truncate toward zero and panic on a zero divisor. *)
Definition div (a b : Z) : option Z :=
  if b =? 0 then None else Some (wrap (Z.quot a b)).
Definition rem (a b : Z) : option Z :=
  if b =? 0 then None else Some (Z.rem a b).

(** ** [float64] values that are integers

    [float64(n)] of an [int] is [n] rounded to a 53-bit significand, ties
    to even; the result is an integer, represented here by its value. *)
Definition float64 (n : Z) : Z :=
  let a := Z.abs n in
  if a <? 2 ^ 53 then n
  else
    let e := Z.log2 a - 52 in
    let q := Z.shiftr a e in
    let r := Z.land a (Z.ones e) in
    let half := 2 ^ (e - 1) in
    let q' := if (half <? r) || ((r =? half) && Z.odd q) then q + 1 else q in
    Z.sgn n * Z.shiftl q' e.

(** [math.Min] on finite values that are not negative zero. *)
Definition math_Min (x y : Z) : Z := Z.min x y.

(** [int(f)] of an integral [float64]; out of range the result is the
    platform's, here amd64's integer indefinite value. *)
Definition int_of_float64 (f : Z) : Z :=
  if (int_min <=? f) && (f <=? int_max) then f else int_min.

(** ** Data model *)

Record Dimensions : Type := mkDimensions {
  X0 : Z;
  X1 : Z;
  Y0 : Z;
  Y1 : Z
}.

Definition ROW : Z := 0.
Definition COLUMN : Z := 1.

Unset Elimination Schemes.
Inductive Box : Type := mkBox {
  Direction : Z;
  ConditionalDirection : option (Z → Z → Z);
  Children : list Box;
  ConditionalChildren : option (Z → Z → list Box);
  ViewName : string;
  Size : Z;
  Weight : Z
}.
Set Elimination Schemes.

Definition isStatic (b : Box) : bool := 0 <? Size b.

Definition getDirection (b : Box) (width height : Z) : Z :=
  match ConditionalDirection b with
  | Some f => f width height
  | None => Direction b
  end.

Definition getChildren (b : Box) (width height : Z) : list Box :=
  match ConditionalChildren b with
  | Some f => f width height
  | None => Children b
  end.

(** [result[k] = v] for every entry of [a], then of [b]. *)
Definition mergeDimensionMaps (a b : gmap string Dimensions)
  : gmap string Dimensions :=
  foldl (λ result dimensionMap,
           map_fold (λ k v result, <[k:=v]> result) result dimensionMap)
        ∅ [a; b].

(** ** The partition of the available size *)

(** First loop over the children: [(reservedSize, totalWeight)]. *)
Definition sumChildren (children : list Box) : Z * Z :=
  foldl (λ '(reservedSize, totalWeight) child,
           (add reservedSize (Size child), add totalWeight (Weight child)))
        (0, 0) children.

Definition reservedSizeOf (children : list Box) : Z := (sumChildren children).1.
Definition totalWeightOf (children : list Box) : Z := (sumChildren children).2.

Definition remainingSizeOf (availableSize reservedSize : Z) : Z :=
  let remainingSize := sub availableSize reservedSize in
  if remainingSize <? 0 then 0 else remainingSize.

(** [(unitSize, extraSize)]. *)
Definition unitAndExtra (remainingSize totalWeight : Z) : option (Z * Z) :=
  if 0 <? totalWeight then
    match div remainingSize totalWeight, rem remainingSize totalWeight with
    | Some unitSize, Some extraSize => Some (unitSize, extraSize)
    | _, _ => None
    end
  else Some (0, 0).

(** Body of the second loop up to the recursive call:
    [(boxSize, extraSize)] after the child. *)
Definition boxExtraSizeOf (extraSize weight : Z) : Z :=
  int_of_float64 (math_Min (float64 extraSize) (float64 weight)).

Definition childBoxSize (unitSize extraSize : Z) (child : Box) : Z * Z :=
  if isStatic child then (Size child, extraSize)
  else
    let boxSize := mul unitSize (Weight child) in
    let boxExtraSize := boxExtraSizeOf extraSize (Weight child) in
    (add boxSize boxExtraSize, sub extraSize boxExtraSize).

Section second_loop.
Variable ArrangeViews :
  Box → Z → Z → Z → Z → option (gmap string Dimensions).
Variables direction x0 y0 width height unitSize : Z.

Fixpoint arrangeChildren (children : list Box) (extraSize offset : Z)
  (result : gmap string Dimensions) : option (gmap string Dimensions) :=
  match children with
  | [] => Some result
  | child :: children =>
      let '(boxSize, extraSize) := childBoxSize unitSize extraSize child in
      let resultForChild :=
        if direction =? COLUMN
        then ArrangeViews child (add x0 offset) y0 boxSize height
        else ArrangeViews child x0 (add y0 offset) width boxSize in
      match resultForChild with
      | None => None
      | Some resultForChild =>
          arrangeChildren children extraSize (add offset boxSize)
            (mergeDimensionMaps result resultForChild)
      end
  end.
End second_loop.

Fixpoint ArrangeViews (root : Box) (x0 y0 width height : Z)
  : option (gmap string Dimensions) :=
  let children := getChildren root width height in
  match children with
  | [] =>
      if decide (ViewName root = "")
      then Some ∅
      else
        let dimensionsForView :=
          {| X0 := x0; Y0 := y0;
             X1 := sub (add x0 width) 1; Y1 := sub (add y0 height) 1 |} in
        Some {[ ViewName root := dimensionsForView ]}
  | _ :: _ =>
      let direction := getDirection root width height in
      let availableSize := if direction =? COLUMN then width else height in
      let '(reservedSize, totalWeight) := sumChildren children in
      let remainingSize := remainingSizeOf availableSize reservedSize in
      match unitAndExtra remainingSize totalWeight with
      | None => None
      | Some (unitSize, extraSize) =>
          arrangeChildren ArrangeViews direction x0 y0 width height unitSize
            children extraSize 0 ∅
      end
  end.

(** Boxes of the examples: a leaf with a view name, and a box with
    children and a fixed direction. *)
Definition leaf (name : string) (size weight : Z) : Box :=
  mkBox ROW None [] None name size weight.

Definition node (direction : Z) (children : list Box) : Box :=
  mkBox direction None children None "" 0 0.

(** ** Derived views of the two loops, used to state the properties *)

(** Extents ([boxSize]) the second loop computes, in list order. *)
Fixpoint boxSizes (unitSize extraSize : Z) (children : list Box) : list Z :=
  match children with
  | [] => []
  | child :: children =>
      let '(boxSize, extraSize) := childBoxSize unitSize extraSize child in
      boxSize :: boxSizes unitSize extraSize children
  end.

(** Values of [offset] at the successive recursive calls. *)
Fixpoint offsetsFrom (offset : Z) (sizes : list Z) : list Z :=
  match sizes with
  | [] => []
  | boxSize :: sizes => offset :: offsetsFrom (add offset boxSize) sizes
  end.

(** The extents of the children of a box that is given [availableSize]. *)
Definition partition (availableSize : Z) (children : list Box)
  : option (list Z) :=
  let '(reservedSize, totalWeight) := sumChildren children in
  match unitAndExtra (remainingSizeOf availableSize reservedSize) totalWeight with
  | None => None
  | Some (unitSize, extraSize) => Some (boxSizes unitSize extraSize children)
  end.

Definition sumZ (l : list Z) : Z := foldr Z.add 0 l.

(** Weights of the children that are not static. *)
Definition weightedWeights (children : list Box) : list Z :=
  Weight <$> filter (λ c, isStatic c = false) children.

(** Weight of the weighted children that precede position [i]. *)
Definition weightBefore (i : nat) (children : list Box) : Z :=
  sumZ (weightedWeights (take i children)).

(** The sizing convention of the package comment: a box has a size or a
    weight, not both. *)
Definition conventional (c : Box) : Prop :=
  (0 < Size c ∧ Weight c = 0) ∨ (Size c = 0 ∧ 0 ≤ Weight c).

Definition staticSizes (children : list Box) : Z :=
  sumZ (Size <$> filter (λ c, isStatic c = true) children).

Definition weightedExtents (children : list Box) (sizes : list Z) : Z :=
  sumZ (snd <$> filter (λ p, isStatic p.1 = false) (zip children sizes)).

(** Merge of the results of the recursive calls, in order, onto [result];
    a call that panics makes the whole merge panic. *)
Definition mergeResults (results : list (option (gmap string Dimensions)))
  (result : option (gmap string Dimensions))
  : option (gmap string Dimensions) :=
  foldl (λ result resultForChild,
           match result, resultForChild with
           | Some a, Some b => Some (mergeDimensionMaps a b)
           | _, _ => None
           end) result results.

(** The entries of the leaves, in traversal order, with no merging: the
    leaf mappings the specification speaks of, a leaf without a view name
    contributing none. *)
Section leaves_loop.
Variable leafEntries :
  Box → Z → Z → Z → Z → option (list (string * Dimensions)).
Variables direction x0 y0 width height unitSize : Z.

Fixpoint childrenEntries (children : list Box) (extraSize offset : Z)
  : option (list (string * Dimensions)) :=
  match children with
  | [] => Some []
  | child :: children =>
      let '(boxSize, extraSize) := childBoxSize unitSize extraSize child in
      match (if direction =? COLUMN
             then leafEntries child (add x0 offset) y0 boxSize height
             else leafEntries child x0 (add y0 offset) width boxSize),
            childrenEntries children extraSize (add offset boxSize) with
      | Some entries, Some rest => Some (entries ++ rest)
      | _, _ => None
      end
  end.
End leaves_loop.

Fixpoint leafEntries (root : Box) (x0 y0 width height : Z)
  : option (list (string * Dimensions)) :=
  let children := getChildren root width height in
  match children with
  | [] =>
      if decide (ViewName root = "")
      then Some []
      else
        Some [(ViewName root,
               {| X0 := x0; Y0 := y0;
                  X1 := sub (add x0 width) 1; Y1 := sub (add y0 height) 1 |})]
  | _ :: _ =>
      let direction := getDirection root width height in
      let availableSize := if direction =? COLUMN then width else height in
      let '(reservedSize, totalWeight) := sumChildren children in
      let remainingSize := remainingSizeOf availableSize reservedSize in
      match unitAndExtra remainingSize totalWeight with
      | None => None
      | Some (unitSize, extraSize) =>
          childrenEntries leafEntries direction x0 y0 width height unitSize
            children extraSize 0
      end
  end.

(** One union of single-entry mappings, onto [result]. *)
Definition unionFrom (result : gmap string Dimensions)
  (entries : list (string * Dimensions)) : gmap string Dimensions :=
  foldl (λ result '(k, v), mergeDimensionMaps result {[ k := v ]})
        result entries.

Definition unionAll (entries : list (string * Dimensions))
  : gmap string Dimensions :=
  unionFrom ∅ entries.

(** ** Notions used to state further properties *)

(** A rectangle moved by [(dx, dy)], in [int] arithmetic. *)
Definition translate (dx dy : Z) (d : Dimensions) : Dimensions :=
  {| X0 := add (X0 d) dx; X1 := add (X1 d) dx;
     Y0 := add (Y0 d) dy; Y1 := add (Y1 d) dy |}.

Definition translateAll (dx dy : Z) (m : gmap string Dimensions)
  : gmap string Dimensions :=
  translate dx dy <$> m.

(** A rectangle with its two axes exchanged. *)
Definition swapDims (d : Dimensions) : Dimensions :=
  {| X0 := Y0 d; X1 := Y1 d; Y0 := X0 d; Y1 := X1 d |}.

Definition swapAll (m : gmap string Dimensions) : gmap string Dimensions :=
  swapDims <$> m.

(** The direction that partitions the other axis: every direction that is
    not COLUMN partitions the height. *)
Definition flipDirection (direction : Z) : Z :=
  if direction =? COLUMN then ROW else COLUMN.

(** The box tree with the two axes exchanged at every box: directions are
    flipped and the functions are given the height first. *)
Fixpoint transpose (b : Box) : Box :=
  {| Direction := flipDirection (Direction b);
     ConditionalDirection :=
       match ConditionalDirection b with
       | Some f => Some (λ width height, flipDirection (f height width))
       | None => None
       end;
     Children := map transpose (Children b);
     ConditionalChildren :=
       match ConditionalChildren b with
       | Some f => Some (λ width height, map transpose (f height width))
       | None => None
       end;
     ViewName := ViewName b;
     Size := Size b;
     Weight := Weight b |}.

(** [inTree l b]: the box [l] is [b] or is below [b], through the children
    [b] has for some allocation. *)
Inductive inTree (l : Box) : Box → Prop :=
| inTree_here : inTree l l
| inTree_child b width height c :
    c ∈ getChildren b width height → inTree l c → inTree l b.

(** The entry [(k, v)] is the rectangle of a box of the tree of [root] that
    is named [k] and was laid out without children. *)
Definition publishedBy (root : Box) (k : string) (v : Dimensions) : Prop :=
  k ≠ ""
  ∧ ∃ l x y width height,
      inTree l root
      ∧ getChildren l width height = []
      ∧ ViewName l = k
      ∧ v = {| X0 := x; Y0 := y;
               X1 := sub (add x width) 1; Y1 := sub (add y height) 1 |}.

(** The view names of a list of boxes, the empty name left out. *)
Definition namesOf (children : list Box) : list string :=
  filter (λ name, name ≠ "") (ViewName <$> children).

(** The rectangle of a child that is given [boxSize] at [offset] along the
    partitioned axis of the allocation [(x0, y0, width, height)]. *)
Definition childRect (direction x0 y0 width height offset boxSize : Z)
  : Dimensions :=
  if direction =? COLUMN
  then {| X0 := add x0 offset; Y0 := y0;
          X1 := sub (add (add x0 offset) boxSize) 1;
          Y1 := sub (add y0 height) 1 |}
  else {| X0 := x0; Y0 := add y0 offset;
          X1 := sub (add x0 width) 1;
          Y1 := sub (add (add y0 offset) boxSize) 1 |}.

(** The rectangle [d] is well formed (each side is of a length that is not
    negative) and lies in the allocation [(x0, y0, width, height)]. *)
Definition inside (x0 y0 width height : Z) (d : Dimensions) : Prop :=
  x0 ≤ X0 d ∧ X0 d - 1 ≤ X1 d ∧ X1 d ≤ x0 + width - 1
  ∧ y0 ≤ Y0 d ∧ Y0 d - 1 ≤ Y1 d ∧ Y1 d ≤ y0 + height - 1.

(** The children of a box follow the sizing convention and their static
    sizes fit the size to partition, which is at most 2^53. *)
Definition childrenFit (availableSize : Z) (children : list Box) : Prop :=
  Forall conventional children
  ∧ sumZ (Size <$> children) ≤ availableSize
  ∧ sumZ (Weight <$> children) ≤ int_max
  ∧ availableSize ≤ 2 ^ 53.

(** [fits b width height]: in the layout of [b] in [width] by [height],
    the children of every box fit the size the box partitions. *)
Unset Elimination Schemes.
Inductive fits : Box → Z → Z → Prop :=
| fits_leaf b width height :
    getChildren b width height = [] → fits b width height
| fits_column b width height sizes :
    getChildren b width height ≠ [] →
    getDirection b width height = COLUMN →
    childrenFit width (getChildren b width height) →
    partition width (getChildren b width height) = Some sizes →
    Forall2 (λ child boxSize, fits child boxSize height)
            (getChildren b width height) sizes →
    fits b width height
| fits_row b width height sizes :
    getChildren b width height ≠ [] →
    getDirection b width height ≠ COLUMN →
    childrenFit height (getChildren b width height) →
    partition height (getChildren b width height) = Some sizes →
    Forall2 (λ child boxSize, fits child width boxSize)
            (getChildren b width height) sizes →
    fits b width height.
Set Elimination Schemes.

(** ** Induction over box trees *)

Section Box_induction.
Variable P : Box → Prop.
Hypothesis step :
  ∀ b, (∀ width height, Forall P (getChildren b width height)) → P b.

Fixpoint Box_children_ind (b : Box) : P b :=
  step b (λ width height,
    (fix all (l : list Box) : Forall P l :=
       match l with
       | [] => List.Forall_nil P
       | c :: l => @List.Forall_cons _ P c l (Box_children_ind c) (all l)
       end) (getChildren b width height)).
End Box_induction.

Local Ltac in_range := unfold in_int, int_min, int_max in *; simpl; lia.

(** ** Machine arithmetic *)

Lemma wrap_in_int z : in_int (wrap z).
Proof.
  unfold in_int, wrap, int_min, int_max.
  pose proof (Z.mod_pos_bound (z + 2 ^ 63) (2 ^ 64)). lia.
Qed.

Lemma wrap_id z : in_int z → wrap z = z.
Proof.
  unfold in_int, wrap, int_min, int_max. intros Hz.
  rewrite Z.mod_small; lia.
Qed.

Lemma wrap_add_l a b : wrap (wrap a + b) = wrap (a + b).
Proof.
  unfold wrap.
  replace ((a + 2 ^ 63) mod 2 ^ 64 - 2 ^ 63 + b + 2 ^ 63)
    with ((a + 2 ^ 63) mod 2 ^ 64 + b) by lia.
  rewrite Zplus_mod_idemp_l. f_equal. f_equal. lia.
Qed.

Lemma add_wrap_l a b : add (wrap a) b = wrap (a + b).
Proof. apply wrap_add_l. Qed.

Lemma add_id a b : in_int (a + b) → add a b = a + b.
Proof. apply wrap_id. Qed.

Lemma sub_id a b : in_int (a - b) → sub a b = a - b.
Proof. apply wrap_id. Qed.

Lemma mul_id a b : in_int (a * b) → mul a b = a * b.
Proof. apply wrap_id. Qed.

(** ** The merge is a right-biased union *)

Lemma map_fold_insert_union (a r : gmap string Dimensions) :
  map_fold (λ k v result, <[k:=v]> result) r a = a ∪ r.
Proof.
  induction a as [|k v a Hk Hfold IH] using map_first_key_ind.
  - by rewrite map_fold_empty, (left_id_L ∅ (∪)).
  - rewrite map_fold_insert_first_key by done.
    by rewrite IH, insert_union_l.
Qed.

Lemma mergeDimensionMaps_union a b : mergeDimensionMaps a b = b ∪ a.
Proof.
  unfold mergeDimensionMaps. simpl.
  by rewrite !map_fold_insert_union, (right_id_L ∅ (∪)).
Qed.

(** ** Conversions through [float64] *)

Lemma float64_small n : Z.abs n ≤ 2 ^ 53 → float64 n = n.
Proof.
  intros Hn. unfold float64.
  destruct (Z.ltb_spec (Z.abs n) (2 ^ 53)) as [|Hge]; [done|].
  assert (Ha : Z.abs n = 2 ^ 53) by lia. rewrite Ha.
  destruct (Z.abs_eq_or_opp n) as [Hs|Hs].
  - assert (n = 2 ^ 53) as -> by lia. reflexivity.
  - assert (n = - 2 ^ 53) as -> by lia. reflexivity.
Qed.

Lemma float64_large n : 2 ^ 53 ≤ n → 2 ^ 53 ≤ float64 n.
Proof.
  intros Hn. unfold float64.
  rewrite (Z.abs_eq n) by lia.
  destruct (Z.ltb_spec n (2 ^ 53)) as [|_]; [lia|].
  rewrite (Z.sgn_pos n) by lia. rewrite Z.mul_1_l.
  set (e := Z.log2 n - 52).
  assert (Hlog : 53 ≤ Z.log2 n).
  { change 53 with (Z.log2 (2 ^ 53)). by apply Z.log2_le_mono. }
  assert (He : 1 ≤ e) by (unfold e; lia).
  destruct (Z.log2_spec n) as [Hlo _]; [lia|].
  assert (Hq : 2 ^ 52 ≤ Z.shiftr n e).
  { rewrite Z.shiftr_div_pow2 by lia.
    apply Z.div_le_lower_bound; [apply Z.pow_pos_nonneg; lia|].
    rewrite <- Z.pow_add_r by lia.
    replace (e + 52) with (Z.log2 n) by (unfold e; lia). done. }
  set (q := Z.shiftr n e) in *.
  match goal with |- context [Z.shiftl ?x e] => set (q' := x) end.
  assert (Hq' : 2 ^ 52 ≤ q') by (unfold q'; case (_ || _); lia).
  rewrite Z.shiftl_mul_pow2 by lia.
  assert (2 ^ 1 ≤ 2 ^ e) by (apply Z.pow_le_mono_r; lia).
  change (2 ^ 53) with (2 ^ 52 * 2 ^ 1). nia.
Qed.

Lemma int_of_float64_id f : in_int f → int_of_float64 f = f.
Proof.
  unfold in_int, int_of_float64. intros [Hlo Hhi].
  destruct (Z.leb_spec int_min f), (Z.leb_spec f int_max); simpl; lia.
Qed.

(** The conversions are exact as soon as the smaller operand fits the
    significand. *)
Lemma boxExtraSizeOf_exact extraSize weight :
  0 ≤ extraSize → 0 ≤ weight → Z.min extraSize weight ≤ 2 ^ 53 →
  boxExtraSizeOf extraSize weight = Z.min extraSize weight.
Proof.
  intros He Hw Hmin. unfold boxExtraSizeOf, math_Min.
  assert (Hr : ∀ z, 0 ≤ z ≤ 2 ^ 53 → in_int z)
    by (unfold in_int, int_min, int_max; lia).
  destruct (Z.le_gt_cases extraSize (2 ^ 53)) as [He'|He'];
    destruct (Z.le_gt_cases weight (2 ^ 53)) as [Hw'|Hw'].
  - rewrite !float64_small by lia. apply int_of_float64_id, Hr. lia.
  - rewrite (float64_small extraSize) by lia.
    pose proof (float64_large weight ltac:(lia)).
    rewrite !Z.min_l by lia. apply int_of_float64_id, Hr. lia.
  - rewrite (float64_small weight) by lia.
    pose proof (float64_large extraSize ltac:(lia)).
    rewrite !Z.min_r by lia. apply int_of_float64_id, Hr. lia.
  - lia.
Qed.

(** ** The first loop *)

Lemma sumZ_cons x l : sumZ (x :: l) = x + sumZ l.
Proof. reflexivity. Qed.

Lemma sumZ_app l1 l2 : sumZ (l1 ++ l2) = sumZ l1 + sumZ l2.
Proof. induction l1 as [|x l1 IH]; [done|]. rewrite <- app_comm_cons, !sumZ_cons, IH. lia. Qed.

Lemma wrap_0 : wrap 0 = 0.
Proof. reflexivity. Qed.

Lemma sumChildren_from r t children :
  foldl (λ '(reservedSize, totalWeight) child,
           (add reservedSize (Size child), add totalWeight (Weight child)))
        (wrap r, wrap t) children
  = (wrap (r + sumZ (Size <$> children)), wrap (t + sumZ (Weight <$> children))).
Proof.
  revert r t. induction children as [|c children IH]; intros r t; simpl.
  - by rewrite !Z.add_0_r.
  - rewrite !add_wrap_l, IH. by rewrite !Z.add_assoc.
Qed.

Lemma sumChildren_wrap children :
  sumChildren children
  = (wrap (sumZ (Size <$> children)), wrap (sumZ (Weight <$> children))).
Proof.
  unfold sumChildren. rewrite <- wrap_0 at 1 2. by rewrite sumChildren_from.
Qed.

Lemma reservedSizeOf_wrap children :
  reservedSizeOf children = wrap (sumZ (Size <$> children)).
Proof. unfold reservedSizeOf. by rewrite sumChildren_wrap. Qed.

Lemma totalWeightOf_wrap children :
  totalWeightOf children = wrap (sumZ (Weight <$> children)).
Proof. unfold totalWeightOf. by rewrite sumChildren_wrap. Qed.

Lemma sumChildren_pair children :
  sumChildren children = (reservedSizeOf children, totalWeightOf children).
Proof. unfold reservedSizeOf, totalWeightOf. by destruct (sumChildren children). Qed.

Lemma sumZ_weights_convention children :
  Forall (λ c, isStatic c = true → Weight c = 0) children →
  sumZ (Weight <$> children) = sumZ (weightedWeights children).
Proof.
  unfold weightedWeights. induction 1 as [|c children Hc _ IH]; [done|].
  rewrite fmap_cons, sumZ_cons, filter_cons.
  destruct (decide (isStatic c = false)) as [Hs|Hs].
  - by rewrite fmap_cons, sumZ_cons, IH.
  - rewrite Hc by (by destruct (isStatic c)). by rewrite IH.
Qed.

(** ** The second loop: extents *)

Lemma boxSizes_cons unitSize extraSize child children :
  boxSizes unitSize extraSize (child :: children)
  = (childBoxSize unitSize extraSize child).1
    :: boxSizes unitSize (childBoxSize unitSize extraSize child).2 children.
Proof. simpl. by destruct (childBoxSize unitSize extraSize child). Qed.

Lemma boxSizes_length unitSize extraSize children :
  length (boxSizes unitSize extraSize children) = length children.
Proof.
  revert extraSize. induction children as [|c children IH]; intros e; [done|].
  rewrite boxSizes_cons. simpl. by rewrite IH.
Qed.

Lemma childBoxSize_static unitSize extraSize child :
  isStatic child = true →
  childBoxSize unitSize extraSize child = (Size child, extraSize).
Proof. unfold childBoxSize. by intros ->. Qed.

Lemma childBoxSize_weighted unitSize extraSize child :
  isStatic child = false → 0 ≤ extraSize ≤ 2 ^ 53 → 0 ≤ Weight child →
  childBoxSize unitSize extraSize child
  = (add (mul unitSize (Weight child)) (Z.min extraSize (Weight child)),
     extraSize - Z.min extraSize (Weight child)).
Proof.
  intros Hs He Hw. unfold childBoxSize. rewrite Hs.
  rewrite boxExtraSizeOf_exact by lia. f_equal.
  apply sub_id. unfold in_int, int_min, int_max. lia.
Qed.

Lemma boxSizes_lookup_static unitSize children :
  ∀ extraSize i child,
    children !! i = Some child → isStatic child = true →
    boxSizes unitSize extraSize children !! i = Some (Size child).
Proof.
  induction children as [|c children IH]; intros e i child Hi Hs; [done|].
  rewrite boxSizes_cons. destruct i as [|i]; simpl in Hi.
  - injection Hi as ->. by rewrite childBoxSize_static.
  - simpl. by apply IH.
Qed.

(** With nothing to distribute every weighted child gets no extent. *)
Lemma boxSizes_nothing children :
  Forall (λ c, isStatic c = false → 0 ≤ Weight c) children →
  ∀ i child,
    children !! i = Some child → isStatic child = false →
    boxSizes 0 0 children !! i = Some 0.
Proof.
  induction 1 as [|c children Hc _ IH]; intros i child Hi Hs; [done|].
  rewrite boxSizes_cons.
  assert (Hstep : isStatic c = false → childBoxSize 0 0 c = (0, 0)).
  { intros Hsc. rewrite childBoxSize_weighted by (auto; lia).
    rewrite Z.min_l by auto. reflexivity. }
  destruct i as [|i]; simpl in Hi.
  - injection Hi as ->. by rewrite Hstep.
  - simpl. destruct (isStatic c) eqn:Hsc.
    + rewrite childBoxSize_static by done. by apply (IH i child).
    + rewrite Hstep by done. by apply (IH i child).
Qed.

Lemma weightedWeights_cons child children :
  weightedWeights (child :: children)
  = if isStatic child then weightedWeights children
    else Weight child :: weightedWeights children.
Proof.
  unfold weightedWeights. rewrite filter_cons.
  destruct (isStatic child); by case_decide.
Qed.

Lemma weightedWeights_nonneg children :
  Forall (λ c, isStatic c = false → 0 ≤ Weight c) children →
  0 ≤ sumZ (weightedWeights children).
Proof.
  induction 1 as [|c children Hc _ IH]; [done|].
  rewrite weightedWeights_cons. destruct (isStatic c); [done|].
  rewrite sumZ_cons. specialize (Hc eq_refl). lia.
Qed.

Lemma weightBefore_nonneg i children :
  Forall (λ c, isStatic c = false → 0 ≤ Weight c) children →
  0 ≤ weightBefore i children.
Proof. intros H. by apply weightedWeights_nonneg, Forall_take. Qed.

Lemma weightBefore_S i child children :
  weightBefore (S i) (child :: children)
  = (if isStatic child then 0 else Weight child) + weightBefore i children.
Proof.
  unfold weightBefore. rewrite firstn_cons, weightedWeights_cons.
  by destruct (isStatic child).
Qed.

(** The pool a weighted child draws from is what the weighted children
    before it have left of the initial remainder. *)
Lemma boxSizes_lookup_weighted unitSize children :
  Forall (λ c, isStatic c = false → 0 ≤ Weight c) children →
  ∀ extraSize i child,
    0 ≤ extraSize ≤ 2 ^ 53 →
    children !! i = Some child → isStatic child = false →
    boxSizes unitSize extraSize children !! i
    = Some (add (mul unitSize (Weight child))
                (Z.min (Z.max 0 (extraSize - weightBefore i children))
                       (Weight child))).
Proof.
  induction 1 as [|c children Hc Hall IH]; intros e i child He Hi Hs; [done|].
  rewrite boxSizes_cons. destruct i as [|i]; simpl in Hi.
  - injection Hi as ->. rewrite childBoxSize_weighted by auto. simpl.
    unfold weightBefore. simpl. do 3 f_equal. lia.
  - simpl. rewrite weightBefore_S.
    pose proof (weightBefore_nonneg i children Hall) as Hwb.
    destruct (isStatic c) eqn:Hsc.
    + rewrite childBoxSize_static by done. simpl.
      rewrite (IH e i child) by done. do 4 f_equal.
    + specialize (Hc eq_refl). rewrite childBoxSize_weighted by done. simpl.
      rewrite (IH _ i child) by (done || lia). do 3 f_equal. lia.
Qed.

(** ** The size to distribute *)

Lemma remainingSizeOf_exact availableSize reservedSize :
  in_int (availableSize - reservedSize) →
  remainingSizeOf availableSize reservedSize
  = Z.max 0 (availableSize - reservedSize).
Proof.
  intros Hr. unfold remainingSizeOf. rewrite sub_id by done.
  destruct (Z.ltb_spec (availableSize - reservedSize) 0); lia.
Qed.

Lemma remainingSizeOf_range availableSize reservedSize :
  0 ≤ remainingSizeOf availableSize reservedSize ≤ int_max.
Proof.
  unfold remainingSizeOf.
  pose proof (wrap_in_int (availableSize - reservedSize)) as [_ Hhi].
  fold (sub availableSize reservedSize) in Hhi.
  destruct (Z.ltb_spec (sub availableSize reservedSize) 0);
    unfold int_max in *; lia.
Qed.

Lemma unitAndExtra_is_Some remainingSize totalWeight :
  is_Some (unitAndExtra remainingSize totalWeight).
Proof.
  unfold unitAndExtra, div, rem.
  destruct (Z.ltb_spec 0 totalWeight); [|by eexists].
  destruct (Z.eqb_spec totalWeight 0); [lia|by eexists].
Qed.

Lemma unitAndExtra_guard remainingSize totalWeight :
  totalWeight ≤ 0 → unitAndExtra remainingSize totalWeight = Some (0, 0).
Proof.
  intros Hw. unfold unitAndExtra. by destruct (Z.ltb_spec 0 totalWeight); [lia|].
Qed.

Lemma unitAndExtra_divmod remainingSize totalWeight :
  0 ≤ remainingSize ≤ int_max → 0 < totalWeight →
  unitAndExtra remainingSize totalWeight
  = Some (remainingSize / totalWeight, remainingSize mod totalWeight).
Proof.
  intros Hr Hw. unfold unitAndExtra, div, rem.
  destruct (Z.ltb_spec 0 totalWeight); [|lia].
  destruct (Z.eqb_spec totalWeight 0); [lia|].
  rewrite Z.quot_div_nonneg, Z.rem_mod_nonneg by lia.
  rewrite wrap_id; [done|].
  pose proof (Z.div_pos remainingSize totalWeight).
  pose proof (Z.div_le_upper_bound remainingSize totalWeight remainingSize).
  unfold in_int, int_min, int_max in *. nia.
Qed.

Lemma unitAndExtra_nothing totalWeight :
  unitAndExtra 0 totalWeight = Some (0, 0).
Proof.
  destruct (Z.le_gt_cases totalWeight 0).
  - by apply unitAndExtra_guard.
  - rewrite unitAndExtra_divmod by (unfold int_max; lia).
    by rewrite Z.div_0_l, Z.mod_0_l by lia.
Qed.

(** ** The second loop: the extents add up *)

Lemma conventional_weights children :
  Forall conventional children → 0 ≤ sumZ (Weight <$> children).
Proof.
  induction 1 as [|c children Hc _ IH]; [done|].
  rewrite fmap_cons, sumZ_cons. destruct Hc as [[_ ->]|[_ Hw]]; lia.
Qed.

Lemma boxSizes_sum unitSize children :
  Forall conventional children →
  ∀ extraSize,
    0 ≤ unitSize → 0 ≤ extraSize ≤ 2 ^ 53 →
    unitSize * sumZ (Weight <$> children) + extraSize ≤ int_max →
    sumZ (boxSizes unitSize extraSize children)
    = sumZ (Size <$> children) + unitSize * sumZ (Weight <$> children)
      + Z.min extraSize (sumZ (Weight <$> children)).
Proof.
  induction 1 as [|c children Hc Hall IH]; intros e Hu He Hfit.
  - simpl. lia.
  - pose proof (conventional_weights children Hall) as Hws.
    rewrite boxSizes_cons, !fmap_cons, !sumZ_cons in *.
    destruct Hc as [[Hs Hw]|[Hs Hw]].
    + rewrite childBoxSize_static by (unfold isStatic; by apply Z.ltb_lt).
      simpl. rewrite Hw in *. rewrite IH by (done || lia). lia.
    + assert (Hns : isStatic c = false)
        by (unfold isStatic; apply Z.ltb_ge; lia).
      rewrite childBoxSize_weighted by done. simpl.
      set (w := Weight c) in *. set (W := sumZ (Weight <$> children)) in *.
      assert (0 ≤ unitSize * w ∧ 0 ≤ unitSize * W) as [? ?] by nia.
      rewrite IH by (done || nia).
      rewrite mul_id, add_id by (unfold in_int, int_min, int_max in *; nia).
      nia.
Qed.

(** ** Unfolding [ArrangeViews] *)

Lemma ArrangeViews_unfold root x0 y0 width height :
  ArrangeViews root x0 y0 width height
  = let children := getChildren root width height in
    match children with
    | [] =>
        if decide (ViewName root = "")
        then Some ∅
        else
          Some {[ ViewName root :=
                    {| X0 := x0; Y0 := y0;
                       X1 := sub (add x0 width) 1;
                       Y1 := sub (add y0 height) 1 |} ]}
    | _ :: _ =>
        let direction := getDirection root width height in
        let availableSize := if direction =? COLUMN then width else height in
        let '(reservedSize, totalWeight) := sumChildren children in
        let remainingSize := remainingSizeOf availableSize reservedSize in
        match unitAndExtra remainingSize totalWeight with
        | None => None
        | Some (unitSize, extraSize) =>
            arrangeChildren ArrangeViews direction x0 y0 width height unitSize
              children extraSize 0 ∅
        end
    end.
Proof. by destruct root. Qed.

Lemma ArrangeViews_leaf root x0 y0 width height :
  getChildren root width height = [] →
  ArrangeViews root x0 y0 width height
  = if decide (ViewName root = "") then Some ∅
    else Some {[ ViewName root :=
                   {| X0 := x0; Y0 := y0;
                      X1 := sub (add x0 width) 1;
                      Y1 := sub (add y0 height) 1 |} ]}.
Proof. intros H. rewrite ArrangeViews_unfold. cbn zeta. by rewrite H. Qed.

Lemma ArrangeViews_node root x0 y0 width height :
  getChildren root width height ≠ [] →
  ArrangeViews root x0 y0 width height
  = let children := getChildren root width height in
    let direction := getDirection root width height in
    let availableSize := if direction =? COLUMN then width else height in
    match unitAndExtra
            (remainingSizeOf availableSize (reservedSizeOf children))
            (totalWeightOf children) with
    | None => None
    | Some (unitSize, extraSize) =>
        arrangeChildren ArrangeViews direction x0 y0 width height unitSize
          children extraSize 0 ∅
    end.
Proof.
  intros H. rewrite ArrangeViews_unfold. cbn zeta.
  rewrite sumChildren_pair.
  by destruct (getChildren root width height).
Qed.

Lemma arrangeChildren_calls rec direction x0 y0 width height unitSize children :
  ∀ extraSize offset result,
    arrangeChildren rec direction x0 y0 width height unitSize
      children extraSize offset result
    = let sizes := boxSizes unitSize extraSize children in
      mergeResults
        (zip_with (λ child '(offset, boxSize),
                     if direction =? COLUMN
                     then rec child (add x0 offset) y0 boxSize height
                     else rec child x0 (add y0 offset) width boxSize)
           children (zip (offsetsFrom offset sizes) sizes))
        (Some result).
Proof.
  assert (Hnone : ∀ l, mergeResults l None = None) by (by induction l).
  induction children as [|c children IH]; intros e o r; [done|].
  cbn zeta. rewrite boxSizes_cons. simpl.
  destruct (childBoxSize unitSize e c) as [b e']. simpl.
  destruct (if direction =? COLUMN then _ else _) as [m|].
  - by rewrite IH.
  - by rewrite Hnone.
Qed.

Lemma arrangeChildren_is_Some rec direction x0 y0 width height unitSize children :
  Forall (λ c, ∀ x y w h, is_Some (rec c x y w h)) children →
  ∀ extraSize offset result,
    is_Some (arrangeChildren rec direction x0 y0 width height unitSize
               children extraSize offset result).
Proof.
  induction 1 as [|c children Hc _ IH]; intros e o r; simpl; [by eexists|].
  destruct (childBoxSize unitSize e c) as [b e'].
  destruct (direction =? COLUMN).
  - destruct (Hc (add x0 o) y0 b height) as [m ->]. apply IH.
  - destruct (Hc x0 (add y0 o) width b) as [m ->]. apply IH.
Qed.

Lemma ArrangeViews_is_Some root :
  ∀ x0 y0 width height, is_Some (ArrangeViews root x0 y0 width height).
Proof.
  induction root as [root IH] using Box_children_ind. intros x0 y0 width height.
  destruct (getChildren root width height) as [|c cs] eqn:Hc.
  - rewrite ArrangeViews_leaf by done. case_decide; by eexists.
  - rewrite ArrangeViews_node by (by rewrite Hc). cbn zeta.
    destruct (unitAndExtra_is_Some
                (remainingSizeOf
                   (if getDirection root width height =? COLUMN
                    then width else height)
                   (reservedSizeOf (getChildren root width height)))
                (totalWeightOf (getChildren root width height)))
      as [[u e] ->].
    apply arrangeChildren_is_Some, IH.
Qed.

(** ** Leaf mappings *)

Lemma leafEntries_unfold root x0 y0 width height :
  leafEntries root x0 y0 width height
  = let children := getChildren root width height in
    match children with
    | [] =>
        if decide (ViewName root = "")
        then Some []
        else
          Some [(ViewName root,
                 {| X0 := x0; Y0 := y0;
                    X1 := sub (add x0 width) 1;
                    Y1 := sub (add y0 height) 1 |})]
    | _ :: _ =>
        let direction := getDirection root width height in
        let availableSize := if direction =? COLUMN then width else height in
        let '(reservedSize, totalWeight) := sumChildren children in
        let remainingSize := remainingSizeOf availableSize reservedSize in
        match unitAndExtra remainingSize totalWeight with
        | None => None
        | Some (unitSize, extraSize) =>
            childrenEntries leafEntries direction x0 y0 width height unitSize
              children extraSize 0
        end
    end.
Proof. by destruct root. Qed.

Lemma merge_singleton (m : gmap string Dimensions) k v :
  mergeDimensionMaps m {[ k := v ]} = <[k:=v]> m.
Proof. by rewrite mergeDimensionMaps_union, insert_union_singleton_l. Qed.

Lemma unionFrom_cons result k v entries :
  unionFrom result ((k, v) :: entries) = unionFrom (<[k:=v]> result) entries.
Proof. unfold unionFrom. simpl. by rewrite merge_singleton. Qed.

Lemma unionFrom_app result entries1 entries2 :
  unionFrom result (entries1 ++ entries2)
  = unionFrom (unionFrom result entries1) entries2.
Proof. apply foldl_app. Qed.

Lemma unionFrom_union result entries :
  unionFrom result entries = unionAll entries ∪ result.
Proof.
  unfold unionAll. revert result.
  induction entries as [|[k v] entries IH]; intros result.
  - unfold unionFrom. simpl. by rewrite (left_id_L ∅ (∪)).
  - rewrite !unionFrom_cons, IH, (IH (<[k:=v]> ∅)).
    by rewrite <- (assoc_L (∪)), insert_empty, <- insert_union_singleton_l.
Qed.

Lemma unionAll_list_to_map entries :
  unionAll entries = list_to_map (reverse entries).
Proof.
  unfold unionAll.
  induction entries as [|[k v] entries IH] using rev_ind; [done|].
  rewrite unionFrom_app, IH, reverse_snoc, list_to_map_cons.
  unfold unionFrom. simpl. apply merge_singleton.
Qed.

Lemma unionAll_permutation entries entries' :
  NoDup entries.*1 → entries' ≡ₚ entries →
  unionAll entries' = unionAll entries.
Proof.
  intros Hnd Hp. rewrite !unionAll_list_to_map.
  symmetry. apply list_to_map_proper.
  - by rewrite fmap_reverse, reverse_Permutation.
  - by rewrite !reverse_Permutation.
Qed.

Lemma arrangeChildren_entries rec1 rec2 direction x0 y0 width height unitSize
    children :
  Forall (λ c, ∀ x y w h, rec1 c x y w h = unionAll <$> rec2 c x y w h)
         children →
  ∀ extraSize offset result,
    arrangeChildren rec1 direction x0 y0 width height unitSize
      children extraSize offset result
    = unionFrom result
        <$> childrenEntries rec2 direction x0 y0 width height unitSize
              children extraSize offset.
Proof.
  induction 1 as [|c children Hc _ IH]; intros e o r; [done|].
  simpl. destruct (childBoxSize unitSize e c) as [b e'].
  rewrite !Hc.
  destruct (direction =? COLUMN).
  - destruct (rec2 c (add x0 o) y0 b height) as [es|]; simpl; [|done].
    rewrite IH. destruct (childrenEntries _ _ _ _ _ _ _ _ _ _) as [rest|];
      simpl; [|done].
    by rewrite unionFrom_app, mergeDimensionMaps_union, <- unionFrom_union.
  - destruct (rec2 c x0 (add y0 o) width b) as [es|]; simpl; [|done].
    rewrite IH. destruct (childrenEntries _ _ _ _ _ _ _ _ _ _) as [rest|];
      simpl; [|done].
    by rewrite unionFrom_app, mergeDimensionMaps_union, <- unionFrom_union.
Qed.

Lemma ArrangeViews_entries root :
  ∀ x0 y0 width height,
    ArrangeViews root x0 y0 width height
    = unionAll <$> leafEntries root x0 y0 width height.
Proof.
  induction root as [root IH] using Box_children_ind. intros x0 y0 width height.
  rewrite ArrangeViews_unfold, leafEntries_unfold. cbn zeta.
  specialize (IH width height).
  destruct (getChildren root width height) as [|c cs].
  - case_decide; simpl; [done|].
    unfold unionAll. by rewrite unionFrom_cons, insert_empty.
  - destruct (sumChildren (c :: cs)) as [reservedSize totalWeight].
    destruct (unitAndExtra _ _) as [[u e]|]; [|done].
    by apply arrangeChildren_entries.
Qed.

(** ** Extents of a partition *)

Lemma partition_unfold availableSize children :
  partition availableSize children
  = match unitAndExtra
            (remainingSizeOf availableSize (reservedSizeOf children))
            (totalWeightOf children) with
    | None => None
    | Some (unitSize, extraSize) => Some (boxSizes unitSize extraSize children)
    end.
Proof. unfold partition. by rewrite sumChildren_pair. Qed.

Lemma static_plus_weighted unitSize children :
  ∀ extraSize,
    staticSizes children
    + weightedExtents children (boxSizes unitSize extraSize children)
    = sumZ (boxSizes unitSize extraSize children).
Proof.
  unfold staticSizes, weightedExtents.
  induction children as [|c children IH]; intros e; [done|].
  rewrite boxSizes_cons. cbn [zip zip_with].
  destruct (isStatic c) eqn:Hs.
  - rewrite childBoxSize_static by done. cbn [fst snd].
    rewrite filter_cons_True, filter_cons_False by (simpl; congruence).
    rewrite fmap_cons, !sumZ_cons, <- (IH e). lia.
  - rewrite filter_cons_False, filter_cons_True by (simpl; congruence).
    rewrite fmap_cons, !sumZ_cons, <- (IH _). simpl. lia.
Qed.

Lemma conventional_sizes children :
  Forall conventional children → 0 ≤ sumZ (Size <$> children).
Proof.
  induction 1 as [|c children Hc _ IH]; [done|].
  rewrite fmap_cons, sumZ_cons. destruct Hc as [[? _]|[-> _]]; lia.
Qed.

Lemma wrap_sub_l a b : wrap (wrap a - b) = wrap (a - b).
Proof. apply (wrap_add_l a (- b)). Qed.

Lemma sub_add_1 a b : sub (add a b) 1 = wrap (a + b - 1).
Proof. apply wrap_sub_l. Qed.

Lemma offsetsFrom_lookup sizes :
  ∀ offset i,
    (i < length sizes)%nat →
    offsetsFrom (wrap offset) sizes !! i
    = Some (wrap (offset + sumZ (take i sizes))).
Proof.
  induction sizes as [|b sizes IH]; intros o i Hi; simpl in Hi; [lia|].
  destruct i as [|i]; simpl.
  - by rewrite Z.add_0_r.
  - rewrite add_wrap_l, IH by lia. by rewrite Z.add_assoc.
Qed.

(** ** The pool along the list *)

Lemma weightBefore_succ i child children :
  children !! i = Some child → isStatic child = false →
  weightBefore (S i) children = weightBefore i children + Weight child.
Proof.
  intros Hi Hs. unfold weightBefore, weightedWeights.
  rewrite (take_S_r _ _ _ Hi), filter_app, fmap_app, sumZ_app.
  rewrite filter_cons_True by done. simpl. lia.
Qed.

Lemma weightBefore_succ_static i child children :
  children !! i = Some child → isStatic child = true →
  weightBefore (S i) children = weightBefore i children.
Proof.
  intros Hi Hs. unfold weightBefore, weightedWeights.
  rewrite (take_S_r _ _ _ Hi), filter_app, fmap_app, sumZ_app.
  rewrite filter_cons_False by congruence. simpl. lia.
Qed.

Lemma weightBefore_mono children :
  Forall (λ c, isStatic c = false → 0 ≤ Weight c) children →
  ∀ i j, (i ≤ j)%nat → weightBefore i children ≤ weightBefore j children.
Proof.
  intros Hw i j Hij. induction Hij as [|j Hij IH]; [done|].
  etrans; [exact IH|].
  destruct (children !! j) as [c|] eqn:Hj.
  - destruct (isStatic c) eqn:Hs.
    + by rewrite (weightBefore_succ_static j c).
    + rewrite (weightBefore_succ j c) by done.
      rewrite Forall_lookup in Hw. specialize (Hw j c Hj Hs). lia.
  - unfold weightBefore. apply lookup_ge_None in Hj.
    by rewrite !take_ge by lia.
Qed.

(** ** The scenarios of the specification *)

(** Scenario 1: two static children of sizes 10 and 20 in width 40. *)
Example scenario_two_static :
  ArrangeViews (node COLUMN [leaf "A" 10 0; leaf "B" 20 0]) 0 0 40 5
  = Some {[ "A" := {| X0 := 0; Y0 := 0; X1 := 9; Y1 := 4 |};
            "B" := {| X0 := 10; Y0 := 0; X1 := 29; Y1 := 4 |} ]}.
Proof. by vm_compute. Qed.

(** Scenario 2: weights 1 and 2 in height 30. *)
Example scenario_two_weighted :
  ArrangeViews (node ROW [leaf "A" 0 1; leaf "B" 0 2]) 0 0 10 30
  = Some {[ "A" := {| X0 := 0; Y0 := 0; X1 := 9; Y1 := 9 |};
            "B" := {| X0 := 0; Y0 := 10; X1 := 9; Y1 := 29 |} ]}.
Proof. by vm_compute. Qed.

(** Scenario 4: children that depend on the width given to the box. *)
Example scenario_conditional_children :
  let box :=
    mkBox COLUMN None []
      (Some (λ width _,
               if width <? 20 then [] else [leaf "L" 0 1; leaf "R" 0 1]))
      "whole" 0 1 in
  ArrangeViews box 0 0 10 5
  = Some {[ "whole" := {| X0 := 0; Y0 := 0; X1 := 9; Y1 := 4 |} ]}
  ∧ ArrangeViews box 0 0 30 5
    = Some {[ "L" := {| X0 := 0; Y0 := 0; X1 := 14; Y1 := 4 |};
              "R" := {| X0 := 15; Y0 := 0; X1 := 29; Y1 := 4 |} ]}.
Proof. by vm_compute. Qed.

(** * The claims *)

(** ** C1 *)

(** C1, as stated, fails: a static child that also has a weight is counted
    in [totalWeight] but is given nothing from the weighted pool. With a
    child of size 5 and weight 1 followed by a child of weight 1, 10 units
    are available, [totalWeight] is 2 and [reservedSize] is 5, and the
    extents 5 and 3 add up to 8. *)
Lemma partition_exact_counterexample :
  let children := [mkBox ROW None [] None "a" 5 1; leaf "b" 0 1] in
  children ≠ []
  ∧ 0 < totalWeightOf children
  ∧ reservedSizeOf children ≤ 10
  ∧ partition 10 children = Some [5; 3]
  ∧ staticSizes children + weightedExtents children [5; 3] ≠ 10.
Proof. by vm_compute. Qed.

(** C1 (amended): when every child follows the sizing convention (a static
    child has weight 0, a weighted child has size 0 and a weight that is
    not negative), the sums of the sizes and of the weights fit an [int],
    the available size is at most 2^53, [totalWeight > 0] and
    [reservedSize ≤ availableSize], the static sizes plus the extents of
    the weighted children equal [availableSize]. *)
Theorem partition_exact (children : list Box) (availableSize : Z)
    (sizes : list Z) :
  children ≠ [] →
  Forall conventional children →
  sumZ (Size <$> children) ≤ int_max →
  sumZ (Weight <$> children) ≤ int_max →
  availableSize ≤ 2 ^ 53 →
  0 < totalWeightOf children →
  reservedSizeOf children ≤ availableSize →
  partition availableSize children = Some sizes →
  staticSizes children + weightedExtents children sizes = availableSize.
Proof.
  intros _ Hconv HS HW Ha Htw Hres Hpart.
  pose proof (conventional_sizes _ Hconv) as HS0.
  pose proof (conventional_weights _ Hconv) as HW0.
  rewrite partition_unfold in Hpart.
  rewrite reservedSizeOf_wrap, wrap_id in Hres, Hpart by in_range.
  rewrite totalWeightOf_wrap, wrap_id in Htw, Hpart by in_range.
  set (R := sumZ (Size <$> children)) in *.
  set (W := sumZ (Weight <$> children)) in *.
  rewrite remainingSizeOf_exact, Z.max_r in Hpart by in_range.
  rewrite unitAndExtra_divmod in Hpart by in_range.
  injection Hpart as <-. rewrite static_plus_weighted.
  pose proof (Z.div_mod (availableSize - R) W ltac:(lia)) as Hdm.
  pose proof (Z.mod_pos_bound (availableSize - R) W Htw) as Hm.
  pose proof (Z.div_pos (availableSize - R) W ltac:(lia) Htw) as Hd.
  assert (0 ≤ W * ((availableSize - R) / W)) by nia.
  rewrite boxSizes_sum; fold R W; [lia|done|done|lia|in_range].
Qed.

(** The bounds of [partition_exact] are needed: beyond 2^53 the draw is
    rounded, and sizes whose sum leaves [int] are not seen as exceeding
    the available size. *)
Example partition_inexact_beyond_significand :
  let children := [leaf "a" 0 (2 ^ 53 + 2)] in
  Forall conventional children
  ∧ 0 < totalWeightOf children
  ∧ reservedSizeOf children ≤ 2 ^ 53 + 1
  ∧ partition (2 ^ 53 + 1) children = Some [2 ^ 53].
Proof.
  split; [|by vm_compute].
  apply Forall_singleton. right. by vm_compute.
Qed.

Example partition_inexact_on_overflow :
  let children := [leaf "a" (2 ^ 62) 0; leaf "b" (2 ^ 62) 0; leaf "c" 0 1] in
  Forall conventional children
  ∧ 0 < totalWeightOf children
  ∧ reservedSizeOf children ≤ 0
  ∧ partition 0 children = Some [2 ^ 62; 2 ^ 62; 0].
Proof.
  split; [|by vm_compute].
  rewrite !Forall_cons. split_and!; [left|left|right|done]; by vm_compute.
Qed.

Lemma partition_exact_witness :
  let children := [leaf "a" 4 0; leaf "b" 0 1; leaf "c" 0 2] in
  Forall conventional children
  ∧ 0 < totalWeightOf children
  ∧ reservedSizeOf children ≤ 30
  ∧ partition 30 children = Some [4; 9; 17]
  ∧ staticSizes children + weightedExtents children [4; 9; 17] = 30.
Proof.
  assert (Hconv : Forall conventional
                    [leaf "a" 4 0; leaf "b" 0 1; leaf "c" 0 2])
    by (repeat constructor; unfold conventional; simpl; lia).
  split_and!; [done|by vm_compute..|].
  apply (partition_exact [leaf "a" 4 0; leaf "b" 0 1; leaf "c" 0 2] 30);
    (done || by vm_compute).
Defined.

(** ** C2 *)

(** C2: for a remainder smaller than the number of weighted children (of
    weights that are not negative, in a list of at most 2^53 children), a
    weighted child's extent is [unitSize * weight + min(pool, weight)]
    where the pool is what the weighted children before it have left of
    the remainder, the amount drawn being subtracted for the later
    siblings; of two weighted children of equal weight the later one draws
    no more than the earlier one, and draws something only if the earlier
    one drew its full weight; three children of weight 1 in width 10 get
    4, 3 and 3. *)
Theorem remainder_to_earliest (unitSize extraSize : Z) (children : list Box) :
  let sizes := boxSizes unitSize extraSize children in
  let pool i := Z.max 0 (extraSize - weightBefore i children) in
  Forall (λ c, isStatic c = false → 0 ≤ Weight c) children →
  0 ≤ extraSize < Z.of_nat (length (weightedWeights children)) →
  Z.of_nat (length children) ≤ 2 ^ 53 →
  pool 0%nat = extraSize
  ∧ (∀ i child,
       children !! i = Some child → isStatic child = false →
       sizes !! i
       = Some (add (mul unitSize (Weight child))
                   (Z.min (pool i) (Weight child)))
       ∧ pool (S i) = pool i - Z.min (pool i) (Weight child))
  ∧ (∀ i child,
       children !! i = Some child → isStatic child = true →
       pool (S i) = pool i)
  ∧ (∀ i j ci cj,
       (i < j)%nat →
       children !! i = Some ci → children !! j = Some cj →
       isStatic ci = false → isStatic cj = false →
       Weight ci = Weight cj →
       Z.min (pool j) (Weight cj) ≤ Z.min (pool i) (Weight ci)
       ∧ (0 < Z.min (pool j) (Weight cj) →
          Z.min (pool i) (Weight ci) = Weight ci))
  ∧ partition 10 [leaf "a" 0 1; leaf "b" 0 1; leaf "c" 0 1] = Some [4; 3; 3]
  ∧ ArrangeViews (node COLUMN [leaf "a" 0 1; leaf "b" 0 1; leaf "c" 0 1])
      0 0 10 1
    = Some {[ "a" := {| X0 := 0; Y0 := 0; X1 := 3; Y1 := 0 |};
              "b" := {| X0 := 4; Y0 := 0; X1 := 6; Y1 := 0 |};
              "c" := {| X0 := 7; Y0 := 0; X1 := 9; Y1 := 0 |} ]}.
Proof.
  intros sizes pool Hw He Hlen.
  assert (He' : 0 ≤ extraSize ≤ 2 ^ 53).
  { unfold weightedWeights in He. rewrite length_fmap in He.
    pose proof (length_filter (λ c, isStatic c = false) children). lia. }
  split_and!.
  - unfold pool, weightBefore. simpl. lia.
  - intros i child Hi Hs. split.
    + by apply boxSizes_lookup_weighted.
    + unfold pool. rewrite (weightBefore_succ i child) by done.
      pose proof (weightBefore_nonneg i children Hw).
      rewrite Forall_lookup in Hw. specialize (Hw i child Hi Hs). lia.
  - intros i child Hi Hs. unfold pool.
    by rewrite (weightBefore_succ_static i child).
  - intros i j ci cj Hij Hi Hj Hsi Hsj Heq. unfold pool.
    pose proof (weightBefore_nonneg i children Hw).
    pose proof (weightBefore_mono children Hw (S i) j Hij) as Hmono.
    rewrite (weightBefore_succ i ci) in Hmono by done.
    rewrite Forall_lookup in Hw. specialize (Hw i ci Hi Hsi). lia.
  - by vm_compute.
  - by vm_compute.
Qed.

Lemma remainder_to_earliest_witness :
  let children := [leaf "a" 0 1; leaf "s" 5 0; leaf "b" 0 1; leaf "c" 0 1] in
  0 ≤ 2 < Z.of_nat (length (weightedWeights children))
  ∧ boxSizes 3 2 children !! 0%nat = Some 4
  ∧ boxSizes 3 2 children !! 2%nat = Some 4
  ∧ boxSizes 3 2 children !! 3%nat = Some 3.
Proof.
  assert (Hw : Forall (λ c, isStatic c = false → 0 ≤ Weight c)
                 [leaf "a" 0 1; leaf "s" 5 0; leaf "b" 0 1; leaf "c" 0 1])
    by (repeat constructor; simpl; lia).
  destruct (remainder_to_earliest 3 2
              [leaf "a" 0 1; leaf "s" 5 0; leaf "b" 0 1; leaf "c" 0 1] Hw)
    as (_ & Hext & _); [by vm_compute|by vm_compute|].
  split_and!; [by vm_compute|by vm_compute| | |].
  - by destruct (Hext 0%nat (leaf "a" 0 1) eq_refl eq_refl) as [-> _].
  - by destruct (Hext 2%nat (leaf "b" 0 1) eq_refl eq_refl) as [-> _].
  - by destruct (Hext 3%nat (leaf "c" 0 1) eq_refl eq_refl) as [-> _].
Defined.

(** ** C3 *)

(** C3, as stated, fails: the first loop adds the weight of every child to
    [totalWeight], so a static child with a weight contributes to it. *)
Lemma first_pass_counterexample :
  let children := [mkBox ROW None [] None "a" 5 1] in
  Forall (λ c, isStatic c = true) children
  ∧ totalWeightOf children = 1
  ∧ sumZ (weightedWeights children) = 0.
Proof. split; [by repeat constructor|by vm_compute]. Qed.

(** C3 (amended): [reservedSize] is the sum of the [Size] fields of all
    children and [totalWeight] the sum of the [Weight] fields of all
    children, static or not, both reduced into [int]; [totalWeight] is the
    sum over the children that are not static when every static child has
    weight 0. *)
Theorem first_pass_sums (children : list Box) :
  sumChildren children = (reservedSizeOf children, totalWeightOf children)
  ∧ reservedSizeOf children = wrap (sumZ (Size <$> children))
  ∧ totalWeightOf children = wrap (sumZ (Weight <$> children))
  ∧ (in_int (sumZ (Size <$> children)) →
     reservedSizeOf children = sumZ (Size <$> children))
  ∧ (in_int (sumZ (Weight <$> children)) →
     totalWeightOf children = sumZ (Weight <$> children))
  ∧ (Forall (λ c, isStatic c = true → Weight c = 0) children →
     totalWeightOf children = wrap (sumZ (weightedWeights children))).
Proof.
  split_and!.
  - apply sumChildren_pair.
  - apply reservedSizeOf_wrap.
  - apply totalWeightOf_wrap.
  - intros H. by rewrite reservedSizeOf_wrap, wrap_id.
  - intros H. by rewrite totalWeightOf_wrap, wrap_id.
  - intros H. by rewrite totalWeightOf_wrap, sumZ_weights_convention.
Qed.

Lemma first_pass_sums_witness :
  let children := [leaf "a" 10 0; leaf "b" 0 1; leaf "c" 0 2] in
  reservedSizeOf children = 10 ∧ totalWeightOf children = 3
  ∧ totalWeightOf children = wrap (sumZ (weightedWeights children)).
Proof.
  pose proof (first_pass_sums [leaf "a" 10 0; leaf "b" 0 1; leaf "c" 0 2])
    as (_ & _ & _ & HS & HW & Hconv).
  split_and!.
  - rewrite HS; [reflexivity|in_range].
  - rewrite HW; [reflexivity|in_range].
  - apply Hconv. repeat constructor; simpl; intros; (reflexivity || discriminate).
Defined.

(** ** C4 *)

(** C4: in every partition a static child's extent is its [Size] field,
    whatever the available size; when the reserved size exceeds the
    available size the remaining size is clamped to 0 and every weighted
    child (of a weight that is not negative) gets extent 0; a single
    static child of size 50 laid out in 30 columns gets the columns
    0 to 49. *)
Theorem static_extent_verbatim (availableSize : Z) (children : list Box)
    (sizes : list Z) :
  partition availableSize children = Some sizes →
  (∀ i child,
     children !! i = Some child → isStatic child = true →
     sizes !! i = Some (Size child))
  ∧ (availableSize < reservedSizeOf children →
     in_int (availableSize - reservedSizeOf children) →
     Forall (λ c, isStatic c = false → 0 ≤ Weight c) children →
     remainingSizeOf availableSize (reservedSizeOf children) = 0
     ∧ ∀ i child,
         children !! i = Some child → isStatic child = false →
         sizes !! i = Some 0)
  ∧ partition 30 [leaf "a" 50 0] = Some [50]
  ∧ ArrangeViews (node COLUMN [leaf "a" 50 0]) 0 0 30 5
    = Some {[ "a" := {| X0 := 0; Y0 := 0; X1 := 49; Y1 := 4 |} ]}.
Proof.
  intros Hpart. rewrite partition_unfold in Hpart. split_and!.
  - intros i child Hi Hs.
    destruct (unitAndExtra _ _) as [[u e]|]; [|done].
    injection Hpart as <-. by apply boxSizes_lookup_static.
  - intros Hover Hr Hw.
    assert (Hrem : remainingSizeOf availableSize (reservedSizeOf children) = 0)
      by (rewrite remainingSizeOf_exact by done; lia).
    split; [done|]. intros i child Hi Hs.
    rewrite Hrem, unitAndExtra_nothing in Hpart. injection Hpart as <-.
    by apply (boxSizes_nothing children Hw i child).
  - by vm_compute.
  - by vm_compute.
Qed.

Lemma static_extent_verbatim_witness :
  let children := [leaf "a" 50 0; leaf "b" 0 1] in
  partition 30 children = Some [50; 0]
  ∧ 30 < reservedSizeOf children
  ∧ [50; 0] !! 0%nat = Some (Size (leaf "a" 50 0))
  ∧ remainingSizeOf 30 (reservedSizeOf children) = 0
  ∧ [50; 0] !! 1%nat = Some 0.
Proof.
  assert (Hp : partition 30 [leaf "a" 50 0; leaf "b" 0 1] = Some [50; 0])
    by (by vm_compute).
  destruct (static_extent_verbatim 30 _ _ Hp) as (Hstatic & Hclamp & _).
  split_and!; [done|by vm_compute|by apply Hstatic| |].
  - apply Hclamp; [by vm_compute|by vm_compute|].
    repeat constructor; simpl; lia.
  - apply Hclamp with (child := leaf "b" 0 1); [by vm_compute|by vm_compute| |done..].
    repeat constructor; simpl; lia.
Defined.

(** ** C5 *)

(** C5: a box whose resolved children list is empty yields, for every
    allocation, the single entry [viewID → (x0, y0, x0+width-1,
    y0+height-1)] when it has a view name and the empty mapping when it
    has none; the two sums are Go's, and are the mathematical ones when
    these fit an [int]. *)
Theorem leaf_rectangle (root : Box) (x0 y0 width height : Z) :
  getChildren root width height = [] →
  (ViewName root ≠ "" →
   ArrangeViews root x0 y0 width height
   = Some {[ ViewName root :=
               {| X0 := x0; Y0 := y0;
                  X1 := wrap (x0 + width - 1);
                  Y1 := wrap (y0 + height - 1) |} ]}
   ∧ (in_int (x0 + width - 1) → in_int (y0 + height - 1) →
      ArrangeViews root x0 y0 width height
      = Some {[ ViewName root :=
                  {| X0 := x0; Y0 := y0;
                     X1 := x0 + width - 1; Y1 := y0 + height - 1 |} ]}))
  ∧ (ViewName root = "" → ArrangeViews root x0 y0 width height = Some ∅).
Proof.
  intros Hleaf. rewrite ArrangeViews_leaf, !sub_add_1 by done.
  split; intros Hname.
  - rewrite decide_False by done. split; [done|].
    intros Hx Hy. by rewrite !wrap_id.
  - by rewrite decide_True.
Qed.

Lemma leaf_rectangle_witness :
  getChildren (leaf "main" 0 1) 0 24 = []
  ∧ ArrangeViews (leaf "main" 0 1) 2 3 0 24
    = Some {[ "main" := {| X0 := 2; Y0 := 3; X1 := 1; Y1 := 26 |} ]}
  ∧ ArrangeViews (leaf "" 0 1) 2 3 80 24 = Some ∅.
Proof.
  split_and!; [done| |].
  - apply (leaf_rectangle (leaf "main" 0 1) 2 3 0 24); [done..|in_range|in_range].
  - by apply (leaf_rectangle (leaf "" 0 1) 2 3 80 24).
Defined.

(** ** C6 *)

(** C6: a box with children partitions its width when its direction is
    COLUMN and its height otherwise; the result is the merge, in list
    order, of the recursive calls, the call for a child being at
    [(x0+offset, y0)] with the child's extent as width and the parent's
    height for COLUMN, and at [(x0, y0+offset)] with the parent's width and
    the child's extent as height otherwise; [offset] is the sum of the
    extents of the children before. *)
Theorem recursion_frame (root : Box) (x0 y0 width height : Z) :
  let children := getChildren root width height in
  let direction := getDirection root width height in
  let availableSize := if direction =? COLUMN then width else height in
  children ≠ [] →
  ∃ sizes,
    partition availableSize children = Some sizes
    ∧ ArrangeViews root x0 y0 width height
      = mergeResults
          (zip_with (λ child '(offset, boxSize),
                       if direction =? COLUMN
                       then ArrangeViews child (add x0 offset) y0 boxSize height
                       else ArrangeViews child x0 (add y0 offset) width boxSize)
             children (zip (offsetsFrom 0 sizes) sizes))
          (Some ∅)
    ∧ length sizes = length children
    ∧ ∀ i, (i < length children)%nat →
           offsetsFrom 0 sizes !! i = Some (wrap (sumZ (take i sizes))).
Proof.
  intros children direction availableSize Hne.
  rewrite ArrangeViews_node, partition_unfold by done. cbn zeta.
  fold children direction availableSize.
  destruct (unitAndExtra_is_Some
              (remainingSizeOf availableSize (reservedSizeOf children))
              (totalWeightOf children)) as [[u e] ->].
  exists (boxSizes u e children). split_and!.
  - done.
  - apply arrangeChildren_calls.
  - apply boxSizes_length.
  - intros i Hi. rewrite <- wrap_0 at 1.
    rewrite offsetsFrom_lookup by (by rewrite boxSizes_length).
    by rewrite Z.add_0_l.
Qed.

Lemma recursion_frame_witness :
  let a := leaf "a" 10 0 in
  let b := leaf "b" 0 1 in
  getChildren (node COLUMN [a; b]) 40 5 ≠ []
  ∧ ∃ sizes,
      partition 40 [a; b] = Some sizes
      ∧ ArrangeViews (node COLUMN [a; b]) 2 3 40 5
        = mergeResults
            (zip_with (λ child '(offset, boxSize),
                         ArrangeViews child (add 2 offset) 3 boxSize 5)
               [a; b] (zip (offsetsFrom 0 sizes) sizes))
            (Some ∅).
Proof.
  split; [done|].
  destruct (recursion_frame (node COLUMN [leaf "a" 10 0; leaf "b" 0 1])
              2 3 40 5) as (sizes & Hp & Hcalls & _); [done|].
  exists sizes. split; [exact Hp|exact Hcalls].
Defined.

(** ** C7 *)

(** C7: in a merge the entry of the second mapping wins on a key both
    have, so the last entry of a key wins in a union of entries; the
    mapping [ArrangeViews] builds by merging after each child is the one
    union of the leaf entries in traversal order, and, when the view names
    of these entries are unique, in any order. *)
Theorem merge_is_union :
  (∀ (a b : gmap string Dimensions) k,
     mergeDimensionMaps a b !! k
     = match b !! k with Some v => Some v | None => a !! k end)
  ∧ (∀ entries k v, unionAll (entries ++ [(k, v)]) !! k = Some v)
  ∧ (∀ root x0 y0 width height,
       ∃ entries,
         leafEntries root x0 y0 width height = Some entries
         ∧ ArrangeViews root x0 y0 width height = Some (unionAll entries)
         ∧ (NoDup entries.*1 →
            ∀ entries', entries' ≡ₚ entries →
              ArrangeViews root x0 y0 width height
              = Some (unionAll entries'))).
Proof.
  split_and!.
  - intros a b k. rewrite mergeDimensionMaps_union, lookup_union.
    by destruct (b !! k), (a !! k).
  - intros entries k v. unfold unionAll.
    rewrite unionFrom_app, unionFrom_cons. apply lookup_insert_eq.
  - intros root x0 y0 width height.
    pose proof (ArrangeViews_entries root x0 y0 width height) as Hentries.
    destruct (ArrangeViews_is_Some root x0 y0 width height) as [m Hm].
    rewrite Hm in Hentries.
    destruct (leafEntries root x0 y0 width height) as [entries|];
      [|done].
    exists entries. simpl in Hentries. split_and!; [done|congruence|].
    intros Hnd entries' Hp. rewrite (unionAll_permutation entries) by done.
    congruence.
Qed.

Lemma merge_is_union_witness :
  let root := node ROW [leaf "a" 3 0; node COLUMN [leaf "b" 0 1; leaf "c" 0 1]] in
  ∃ ea eb ec,
    leafEntries root 0 0 20 10 = Some [ea; eb; ec]
    ∧ NoDup [ea; eb; ec].*1
    ∧ ArrangeViews root 0 0 20 10 = Some (unionAll [ec; ea; eb]).
Proof.
  destruct (proj2 (proj2 merge_is_union)
              (node ROW [leaf "a" 3 0; node COLUMN [leaf "b" 0 1; leaf "c" 0 1]])
              0 0 20 10) as (entries & Hl & _ & Hperm).
  vm_compute in Hl. injection Hl as <-.
  eexists _, _, _. split; [by vm_compute|].
  assert (Hnd : NoDup ["a"; "b"; "c"])
    by (apply (bool_decide_unpack _); by vm_compute).
  split; [exact Hnd|].
  apply Hperm; [exact Hnd|].
  exact (Permutation_cons_append [_; _] _).
Defined.

(** ** C8 *)

(** C8: [ArrangeViews] returns a mapping for every box tree and every
    allocation, negative and zero sizes included: the division is reached
    with a positive divisor only; when [totalWeight] is 0 no weighted
    child (of a weight that is not negative) is given any extent. *)
Theorem ArrangeViews_total :
  (∀ root x0 y0 width height,
     ∃ result, ArrangeViews root x0 y0 width height = Some result)
  ∧ (∀ remainingSize totalWeight,
       ∃ unitSize extraSize,
         unitAndExtra remainingSize totalWeight = Some (unitSize, extraSize))
  ∧ (∀ availableSize children,
       totalWeightOf children = 0 →
       Forall (λ c, isStatic c = false → 0 ≤ Weight c) children →
       ∃ sizes,
         partition availableSize children = Some sizes
         ∧ ∀ i child,
             children !! i = Some child → isStatic child = false →
             sizes !! i = Some 0).
Proof.
  split_and!.
  - intros. apply ArrangeViews_is_Some.
  - intros r w. destruct (unitAndExtra_is_Some r w) as [[u e] H]. eauto.
  - intros availableSize children Htw Hw. rewrite partition_unfold, Htw.
    rewrite unitAndExtra_guard by lia. eexists. split; [done|].
    apply (boxSizes_nothing children Hw).
Qed.

Lemma ArrangeViews_total_witness :
  let children := [leaf "a" 10 0; leaf "b" 0 0] in
  totalWeightOf children = 0
  ∧ (∃ result,
       ArrangeViews (node ROW children) 0 0 (-3) 0 = Some result)
  ∧ ∃ sizes,
      partition 40 children = Some sizes ∧ sizes !! 1%nat = Some 0.
Proof.
  destruct ArrangeViews_total as (Htotal & _ & Hnone).
  split_and!; [by vm_compute|apply Htotal|].
  destruct (Hnone 40 [leaf "a" 10 0; leaf "b" 0 0]) as (sizes & Hp & Hz);
    [by vm_compute|repeat constructor; simpl; lia|].
  exists sizes. split; [done|]. by apply (Hz 1%nat (leaf "b" 0 0)).
Defined.

(** ** C9 *)

(** C9, as stated, fails: a negative size does not increase the remaining
    size when the static siblings exceed the available size by more.
    With a static sibling of size 100 and 50 units available, a child of
    size -1 and weight 1 leaves the remaining size at 0 and gets no
    extent. *)
Lemma negative_size_counterexample :
  let child := leaf "b" (-1) 1 in
  let others := [leaf "a" 100 0] in
  Size child < 0
  ∧ isStatic child = false
  ∧ reservedSizeOf others = 100
  ∧ reservedSizeOf (others ++ [child]) = 99
  ∧ remainingSizeOf 50 (reservedSizeOf others) = 0
  ∧ remainingSizeOf 50 (reservedSizeOf (others ++ [child])) = 0
  ∧ partition 50 (others ++ [child]) = Some [100; 0].
Proof. by vm_compute. Qed.

(** C9 (amended): a child of negative size is not static, and its size is
    added to [reservedSize] all the same, so that (no sum leaving [int])
    [availableSize - reservedSize] grows by the absolute value of the size;
    [remainingSize], which is what the weighted children share when
    [totalWeight > 0], is never smaller than without that size and is
    larger whenever it is positive. *)
Theorem negative_size_enlarges_pool (availableSize : Z)
    (before after : list Box) (child : Box) :
  let children := before ++ child :: after in
  let others := before ++ after in
  let remainingSize := remainingSizeOf availableSize (reservedSizeOf children) in
  Size child < 0 →
  in_int (sumZ (Size <$> others)) →
  in_int (sumZ (Size <$> children)) →
  in_int (availableSize - reservedSizeOf others) →
  in_int (availableSize - reservedSizeOf children) →
  isStatic child = false
  ∧ reservedSizeOf children = reservedSizeOf others + Size child
  ∧ remainingSize
    = Z.max 0 (availableSize - reservedSizeOf others - Size child)
  ∧ remainingSizeOf availableSize (reservedSizeOf others) ≤ remainingSize
  ∧ (0 < remainingSize →
     remainingSizeOf availableSize (reservedSizeOf others) < remainingSize)
  ∧ (0 < totalWeightOf children →
     ∃ unitSize extraSize,
       unitAndExtra remainingSize (totalWeightOf children)
       = Some (unitSize, extraSize)
       ∧ unitSize * totalWeightOf children + extraSize = remainingSize).
Proof.
  intros children others remainingSize Hneg Ho Hc Hao Hac.
  assert (Hsum : sumZ (Size <$> children)
                 = sumZ (Size <$> others) + Size child).
  { unfold children, others.
    rewrite !fmap_app, fmap_cons, !sumZ_app, sumZ_cons. lia. }
  assert (Hres : reservedSizeOf children = reservedSizeOf others + Size child).
  { rewrite !reservedSizeOf_wrap, !wrap_id by done. exact Hsum. }
  unfold remainingSize in *. clear remainingSize.
  rewrite !remainingSizeOf_exact by done. rewrite Hres in *.
  split_and!; try lia.
  - unfold isStatic. apply Z.ltb_ge. lia.
  - intros Htw. rewrite unitAndExtra_divmod; [|in_range|done].
    eexists _, _. split; [done|].
    rewrite Z.mul_comm. symmetry. apply Z.div_mod. lia.
Qed.

Lemma negative_size_enlarges_pool_witness :
  let child := leaf "b" (-5) 1 in
  let others := [leaf "a" 10 0] in
  Size child < 0
  ∧ reservedSizeOf (others ++ [child]) = 5
  ∧ remainingSizeOf 30 (reservedSizeOf others) = 20
  ∧ remainingSizeOf 30 (reservedSizeOf (others ++ [child])) = 25
  ∧ remainingSizeOf 30 (reservedSizeOf others)
    < remainingSizeOf 30 (reservedSizeOf (others ++ [child])).
Proof.
  destruct (negative_size_enlarges_pool 30 [leaf "a" 10 0] [] (leaf "b" (-5) 1))
    as (_ & Hres & Hrem & _ & Hlt & _); [by vm_compute..|].
  split_and!; [by vm_compute|by vm_compute|by vm_compute|by vm_compute|].
  apply Hlt. by vm_compute.
Defined.

(** ** C10 *)

(** C10, as stated, fails: beyond 2^53 the conversion to [float64] rounds.
    A single child of weight 2^53+2 laid out in 2^53+1 units leaves an extra
    size of 2^53+1, of which the child draws 2^53 and not the minimum. *)
Lemma float_min_counterexample :
  unitAndExtra (2 ^ 53 + 1) (2 ^ 53 + 2) = Some (0, 2 ^ 53 + 1)
  ∧ boxExtraSizeOf (2 ^ 53 + 1) (2 ^ 53 + 2) = 2 ^ 53
  ∧ Z.min (2 ^ 53 + 1) (2 ^ 53 + 2) = 2 ^ 53 + 1
  ∧ partition (2 ^ 53 + 1) [leaf "a" 0 (2 ^ 53 + 2)] = Some [2 ^ 53].
Proof. by vm_compute. Qed.

(** C10 (amended): for an extra size and a weight that are not negative,
    the amount a weighted child draws through [float64] and [math.Min] is
    the integer minimum of the two whenever that minimum is at most 2^53;
    the child's extent and the pool left to its later siblings are then
    computed from that minimum. *)
Theorem float_min_exact (extraSize weight : Z) :
  0 ≤ extraSize ≤ int_max → 0 ≤ weight → Z.min extraSize weight ≤ 2 ^ 53 →
  boxExtraSizeOf extraSize weight = Z.min extraSize weight
  ∧ ∀ unitSize child,
      isStatic child = false → Weight child = weight →
      childBoxSize unitSize extraSize child
      = (add (mul unitSize weight) (Z.min extraSize weight),
         extraSize - Z.min extraSize weight).
Proof.
  intros He Hw Hmin.
  assert (Hexact : boxExtraSizeOf extraSize weight = Z.min extraSize weight)
    by (apply boxExtraSizeOf_exact; lia).
  split; [exact Hexact|].
  intros unitSize child Hs <-. unfold childBoxSize.
  rewrite Hs, Hexact. f_equal. apply sub_id. in_range.
Qed.

Lemma float_min_exact_witness :
  Z.min 7 (2 ^ 62) ≤ 2 ^ 53
  ∧ boxExtraSizeOf 7 (2 ^ 62) = 7
  ∧ childBoxSize 3 7 (leaf "a" 0 (2 ^ 62)) = (wrap (3 * 2 ^ 62 + 7), 0).
Proof.
  destruct (float_min_exact 7 (2 ^ 62)) as [Hmin Hchild];
    [by vm_compute..|].
  split_and!; [by vm_compute|exact Hmin|].
  by rewrite (Hchild 3 (leaf "a" 0 (2 ^ 62))).
Defined.

(** * Further properties *)

(** ** The partition when the children fit *)

Lemma sumZ_lookup_le (l : list Z) i x :
  Forall (λ y, 0 ≤ y) l → l !! i = Some x → x ≤ sumZ l.
Proof.
  intros Hl. revert i. induction Hl as [|y l Hy Hl IH]; intros i Hi; [done|].
  assert (0 ≤ sumZ l).
  { clear -Hl. induction Hl as [|z l ? ? IH]; [done|]. rewrite sumZ_cons. lia. }
  rewrite sumZ_cons. destruct i as [|i]; simpl in Hi.
  - injection Hi as ->. lia.
  - specialize (IH i Hi). lia.
Qed.

Lemma conventional_weight_nonneg children :
  Forall conventional children → Forall (λ y, 0 ≤ y) (Weight <$> children).
Proof.
  intros H. apply Forall_fmap. eapply Forall_impl; [exact H|].
  intros c Hc. simpl. destruct Hc as [[_ ->]|[_ ?]]; lia.
Qed.

Lemma conventional_weighted children :
  Forall conventional children →
  Forall (λ c, isStatic c = false → 0 ≤ Weight c) children.
Proof.
  intros H. eapply Forall_impl; [exact H|].
  intros c [[_ ->]|[_ ?]] _; lia.
Qed.

Lemma conventional_static c :
  conventional c → isStatic c = false → Size c = 0.
Proof.
  unfold isStatic. intros [[? _]|[? _]] Hs; [|done].
  apply Z.ltb_ge in Hs. lia.
Qed.

(** Under the convention and the bounds, the partition is the second loop
    run on the quotient and the remainder of the remaining size. *)
Lemma partition_fit availableSize children :
  Forall conventional children →
  sumZ (Size <$> children) ≤ int_max →
  sumZ (Weight <$> children) ≤ int_max →
  availableSize ≤ 2 ^ 53 →
  int_min ≤ availableSize - sumZ (Size <$> children) →
  ∃ unitSize extraSize,
    partition availableSize children
    = Some (boxSizes unitSize extraSize children)
    ∧ unitAndExtra
        (remainingSizeOf availableSize (reservedSizeOf children))
        (totalWeightOf children) = Some (unitSize, extraSize)
    ∧ 0 ≤ unitSize
    ∧ 0 ≤ extraSize ≤ 2 ^ 53
    ∧ extraSize ≤ sumZ (Weight <$> children)
    ∧ (0 < sumZ (Weight <$> children) →
       extraSize < sumZ (Weight <$> children))
    ∧ unitSize * sumZ (Weight <$> children) + extraSize
      = (if 0 <? sumZ (Weight <$> children)
         then Z.max 0 (availableSize - sumZ (Size <$> children)) else 0).
Proof.
  intros Hconv HS HW Ha Hlo.
  pose proof (conventional_sizes _ Hconv) as HS0.
  pose proof (conventional_weights _ Hconv) as HW0.
  rewrite partition_unfold.
  rewrite reservedSizeOf_wrap, totalWeightOf_wrap, !wrap_id by in_range.
  set (R := sumZ (Size <$> children)) in *.
  set (W := sumZ (Weight <$> children)) in *.
  rewrite remainingSizeOf_exact by in_range.
  set (r := Z.max 0 (availableSize - R)).
  assert (Hr : 0 ≤ r ≤ 2 ^ 53) by (unfold r; lia).
  destruct (Z.ltb_spec 0 W) as [Hpos|Hzero].
  - rewrite unitAndExtra_divmod by in_range.
    pose proof (Z.div_mod r W ltac:(lia)) as Hdm.
    pose proof (Z.mod_pos_bound r W Hpos) as Hm.
    pose proof (Z.div_pos r W ltac:(lia) Hpos) as Hd.
    assert (0 ≤ W * (r / W)) by nia.
    eexists _, _. split_and!; try done; lia.
  - rewrite unitAndExtra_guard by lia.
    eexists _, _. split_and!; try done; lia.
Qed.

Lemma boxSizes_nonneg unitSize children :
  Forall conventional children →
  ∀ extraSize,
    0 ≤ unitSize → 0 ≤ extraSize ≤ 2 ^ 53 →
    unitSize * sumZ (Weight <$> children) + extraSize ≤ int_max →
    Forall (λ boxSize, 0 ≤ boxSize) (boxSizes unitSize extraSize children).
Proof.
  induction 1 as [|c children Hc Hall IH]; intros e Hu He Hfit; [done|].
  pose proof (conventional_weights children Hall) as Hws.
  rewrite boxSizes_cons, !fmap_cons, !sumZ_cons in *.
  destruct Hc as [[Hs Hw]|[Hs Hw]].
  - rewrite childBoxSize_static by (unfold isStatic; by apply Z.ltb_lt).
    simpl. rewrite Hw in *. constructor; [lia|]. apply IH; (done || lia).
  - assert (Hns : isStatic c = false)
      by (unfold isStatic; apply Z.ltb_ge; lia).
    rewrite childBoxSize_weighted by done. simpl.
    set (w := Weight c) in *. set (W := sumZ (Weight <$> children)) in *.
    assert (0 ≤ unitSize * w ∧ 0 ≤ unitSize * W) as [? ?] by nia.
    rewrite mul_id, add_id by (unfold in_int, int_min, int_max in *; nia).
    constructor; [lia|]. apply IH; (done || nia).
Qed.

(** The extent of a weighted child is its weight times the unit size plus
    what it draws, which is no more than its weight nor than the pool. *)
Lemma boxSizes_lookup_share unitSize extraSize children i child :
  Forall conventional children →
  0 ≤ unitSize → 0 ≤ extraSize ≤ 2 ^ 53 →
  unitSize * sumZ (Weight <$> children) + extraSize ≤ int_max →
  children !! i = Some child → isStatic child = false →
  ∃ drawn,
    boxSizes unitSize extraSize children !! i
    = Some (unitSize * Weight child + drawn)
    ∧ drawn = Z.min (Z.max 0 (extraSize - weightBefore i children))
                    (Weight child)
    ∧ 0 ≤ drawn ≤ Weight child ∧ drawn ≤ extraSize.
Proof.
  intros Hconv Hu He Hfit Hi Hs.
  pose proof (conventional_weighted _ Hconv) as Hw.
  pose proof (weightBefore_nonneg i children Hw) as Hwb.
  assert (Hwc : 0 ≤ Weight child ≤ sumZ (Weight <$> children)).
  { split.
    - rewrite Forall_lookup in Hw. by apply (Hw i child).
    - apply (sumZ_lookup_le _ i); [by apply conventional_weight_nonneg|].
      by rewrite list_lookup_fmap, Hi. }
  eexists. split; [|split; [reflexivity|lia]].
  rewrite (boxSizes_lookup_weighted unitSize children Hw extraSize i child)
    by done.
  assert (0 ≤ unitSize * Weight child ≤ unitSize * sumZ (Weight <$> children))
    by nia.
  by rewrite mul_id, add_id by (unfold in_int, int_min, int_max in *; lia).
Qed.

(** ** X1 *)

(** X1: when the children follow the sizing convention and nothing leaves
    [int] (the available size being at most 2^53), no child gets a negative
    extent, and the extents add up to the static sizes plus, when some
    child has a weight, the remaining size: to no more than the available
    size when the static sizes fit it, and to the static sizes when they
    do not. *)
Theorem extents_total (availableSize : Z) (children : list Box)
    (sizes : list Z) :
  Forall conventional children →
  sumZ (Size <$> children) ≤ int_max →
  sumZ (Weight <$> children) ≤ int_max →
  availableSize ≤ 2 ^ 53 →
  int_min ≤ availableSize - sumZ (Size <$> children) →
  partition availableSize children = Some sizes →
  Forall (λ boxSize, 0 ≤ boxSize) sizes
  ∧ sumZ sizes
    = sumZ (Size <$> children)
      + (if 0 <? sumZ (Weight <$> children)
         then Z.max 0 (availableSize - sumZ (Size <$> children)) else 0)
  ∧ (sumZ (Size <$> children) ≤ availableSize → sumZ sizes ≤ availableSize)
  ∧ (availableSize ≤ sumZ (Size <$> children) →
     sumZ sizes = sumZ (Size <$> children)).
Proof.
  intros Hconv HS HW Ha Hlo Hpart.
  destruct (partition_fit availableSize children Hconv HS HW Ha Hlo)
    as (u & e & Hp & _ & Hu & He & HeW & _ & Hue).
  rewrite Hp in Hpart. injection Hpart as <-.
  pose proof (conventional_sizes _ Hconv) as HS0.
  assert (Hfit : u * sumZ (Weight <$> children) + e ≤ int_max).
  { rewrite Hue. destruct (0 <? _); in_range. }
  assert (Hsum : sumZ (boxSizes u e children)
                 = sumZ (Size <$> children)
                   + (if 0 <? sumZ (Weight <$> children)
                      then Z.max 0 (availableSize - sumZ (Size <$> children))
                      else 0)).
  { rewrite boxSizes_sum by done. rewrite <- Hue. lia. }
  split_and!.
  - by apply boxSizes_nonneg.
  - exact Hsum.
  - intros Hle. rewrite Hsum. destruct (0 <? _); lia.
  - intros Hge. rewrite Hsum. destruct (0 <? _); lia.
Qed.

Lemma extents_total_witness :
  let children := [leaf "a" 4 0; leaf "b" 0 1; leaf "c" 0 2] in
  partition 30 children = Some [4; 9; 17]
  ∧ Forall (λ boxSize, 0 ≤ boxSize) [4; 9; 17]
  ∧ sumZ [4; 9; 17] ≤ 30.
Proof.
  assert (Hconv : Forall conventional
                    [leaf "a" 4 0; leaf "b" 0 1; leaf "c" 0 2])
    by (repeat constructor; unfold conventional; simpl; lia).
  destruct (extents_total 30 [leaf "a" 4 0; leaf "b" 0 1; leaf "c" 0 2]
              [4; 9; 17] Hconv) as (Hpos & _ & Hle & _);
    [by vm_compute..|].
  split_and!; [by vm_compute|exact Hpos|].
  apply Hle. by vm_compute.
Defined.

(** ** X2 *)

(** X2: under the same conditions and with a positive total weight, a
    weighted child gets at least its weight times the quotient of the
    remaining size by the total weight, and at most its weight more; of
    two weighted children of equal weight the earlier one gets no less
    than the later one and at most that weight more. *)
Theorem weighted_share (availableSize : Z) (children : list Box)
    (sizes : list Z) :
  let remainingSize := Z.max 0 (availableSize - sumZ (Size <$> children)) in
  let unitSize := remainingSize / sumZ (Weight <$> children) in
  Forall conventional children →
  sumZ (Size <$> children) ≤ int_max →
  sumZ (Weight <$> children) ≤ int_max →
  availableSize ≤ 2 ^ 53 →
  int_min ≤ availableSize - sumZ (Size <$> children) →
  0 < sumZ (Weight <$> children) →
  partition availableSize children = Some sizes →
  (∀ i child boxSize,
     children !! i = Some child → isStatic child = false →
     sizes !! i = Some boxSize →
     Weight child * unitSize ≤ boxSize ≤ Weight child * unitSize + Weight child)
  ∧ (∀ i j ci cj si sj,
       (i < j)%nat →
       children !! i = Some ci → children !! j = Some cj →
       isStatic ci = false → isStatic cj = false →
       Weight ci = Weight cj →
       sizes !! i = Some si → sizes !! j = Some sj →
       sj ≤ si ≤ sj + Weight ci).
Proof.
  intros remainingSize unitSize Hconv HS HW Ha Hlo Hpos Hpart.
  destruct (partition_fit availableSize children Hconv HS HW Ha Hlo)
    as (u & e & Hp & _ & Hu & He & HeW & Hlt & Hue).
  rewrite Hp in Hpart. injection Hpart as <-.
  specialize (Hlt Hpos).
  rewrite (proj2 (Z.ltb_lt _ _) Hpos) in Hue. fold remainingSize in Hue.
  assert (Hunit : u = unitSize).
  { unfold unitSize. apply (Z.div_unique_pos _ _ u e).
    - split; [apply He|exact Hlt].
    - rewrite <- Hue. ring. }
  pose proof (conventional_sizes _ Hconv) as HS0.
  assert (Hfit : u * sumZ (Weight <$> children) + e ≤ int_max)
    by (rewrite Hue; unfold remainingSize; in_range).
  pose proof (conventional_weighted _ Hconv) as Hw.
  split.
  - intros i child boxSize Hi Hs Hsize.
    destruct (boxSizes_lookup_share u e children i child)
      as (d & Hd & _ & Hdw & _); try done.
    rewrite Hd in Hsize. injection Hsize as <-. rewrite <- Hunit. lia.
  - intros i j ci cj si sj Hij Hi Hj Hsi Hsj Heq Hsizei Hsizej.
    destruct (boxSizes_lookup_share u e children i ci)
      as (di & Hdi & Hdi' & Hdiw & _); try done.
    destruct (boxSizes_lookup_share u e children j cj)
      as (dj & Hdj & Hdj' & Hdjw & _); try done.
    rewrite Hdi in Hsizei. rewrite Hdj in Hsizej.
    injection Hsizei as <-. injection Hsizej as <-.
    pose proof (weightBefore_mono children Hw i j ltac:(lia)).
    rewrite <- Heq in *. lia.
Qed.

Lemma weighted_share_witness :
  let children := [leaf "a" 4 0; leaf "b" 0 1; leaf "c" 0 2; leaf "d" 0 1] in
  partition 30 children = Some [4; 7; 13; 6]
  ∧ 1 * (26 / 4) ≤ 7 ≤ 1 * (26 / 4) + 1
  ∧ 6 ≤ 7 ≤ 6 + 1.
Proof.
  assert (Hconv : Forall conventional
            [leaf "a" 4 0; leaf "b" 0 1; leaf "c" 0 2; leaf "d" 0 1])
    by (repeat constructor; unfold conventional; simpl; lia).
  destruct (weighted_share 30
              [leaf "a" 4 0; leaf "b" 0 1; leaf "c" 0 2; leaf "d" 0 1]
              [4; 7; 13; 6] Hconv) as (Hshare & Horder);
    [by vm_compute..|].
  split; [by vm_compute|split].
  - exact (Hshare 1%nat (leaf "b" 0 1) 7 eq_refl eq_refl eq_refl).
  - exact (Horder 1%nat 3%nat (leaf "b" 0 1) (leaf "d" 0 1) 7 6
             ltac:(lia) eq_refl eq_refl eq_refl eq_refl eq_refl eq_refl
             eq_refl).
Defined.

(** ** X3 *)

(** X3: merging is associative, the empty mapping is its unit on both
    sides, merging a mapping with itself gives it back, and the keys of a
    merge are the keys of the one mapping and of the other. *)
Theorem mergeDimensionMaps_laws :
  (∀ a, mergeDimensionMaps a ∅ = a)
  ∧ (∀ b, mergeDimensionMaps ∅ b = b)
  ∧ (∀ a b c,
       mergeDimensionMaps (mergeDimensionMaps a b) c
       = mergeDimensionMaps a (mergeDimensionMaps b c))
  ∧ (∀ a, mergeDimensionMaps a a = a)
  ∧ (∀ a b, dom (mergeDimensionMaps a b) = dom a ∪ dom b).
Proof.
  split_and!; intros; rewrite ?mergeDimensionMaps_union.
  - apply (left_id_L ∅ (∪)).
  - apply (right_id_L ∅ (∪)).
  - apply (assoc_L (∪)).
  - apply (idemp_L (∪)).
  - rewrite dom_union_L. apply (comm_L (∪)).
Qed.

(** ** X4 *)

(** X4: whatever the available size, the reserved size and the total
    weight, the remaining size is an [int] that is not negative, the unit
    size and the extra size lie between 0 and the remaining size, and when
    the total weight is positive the extra size is below it and the unit
    size times the total weight plus the extra size is the remaining
    size; otherwise both are 0. *)
Theorem unit_and_extra_bounds (availableSize reservedSize totalWeight : Z) :
  let remainingSize := remainingSizeOf availableSize reservedSize in
  ∃ unitSize extraSize,
    unitAndExtra remainingSize totalWeight = Some (unitSize, extraSize)
    ∧ 0 ≤ remainingSize ≤ int_max
    ∧ 0 ≤ unitSize ≤ remainingSize
    ∧ 0 ≤ extraSize ≤ remainingSize
    ∧ (0 < totalWeight →
       extraSize < totalWeight
       ∧ unitSize * totalWeight + extraSize = remainingSize)
    ∧ (totalWeight ≤ 0 → unitSize = 0 ∧ extraSize = 0).
Proof.
  intros remainingSize.
  pose proof (remainingSizeOf_range availableSize reservedSize) as Hr.
  fold remainingSize in Hr.
  destruct (Z.lt_ge_cases 0 totalWeight) as [Hpos|Hle].
  - rewrite unitAndExtra_divmod by done.
    pose proof (Z.div_mod remainingSize totalWeight ltac:(lia)) as Hdm.
    pose proof (Z.mod_pos_bound remainingSize totalWeight Hpos) as Hm.
    pose proof (Z.div_pos remainingSize totalWeight ltac:(lia) Hpos) as Hd.
    pose proof (Z.mod_le remainingSize totalWeight ltac:(lia) Hpos).
    assert (remainingSize / totalWeight ≤ remainingSize)
      by (apply Z.div_le_upper_bound; nia).
    eexists _, _. split_and!; try done; lia.
  - rewrite unitAndExtra_guard by done.
    eexists _, _. split_and!; try done; lia.
Qed.

(** ** Moving and transposing a layout *)

Lemma add_swap a b c : add (add a b) c = add (add a c) b.
Proof. unfold add. rewrite !wrap_add_l. f_equal. lia. Qed.

Lemma corner_translate a d w : sub (add (add a d) w) 1 = add (sub (add a w) 1) d.
Proof.
  unfold add, sub. rewrite !wrap_add_l, !wrap_sub_l.
  replace (wrap (a + w) - 1 + d) with (wrap (a + w) + (d - 1)) by lia.
  rewrite wrap_add_l. f_equal. lia.
Qed.

Lemma mergeDimensionMaps_fmap (f : Dimensions → Dimensions) a b :
  mergeDimensionMaps (f <$> a) (f <$> b) = f <$> mergeDimensionMaps a b.
Proof. by rewrite !mergeDimensionMaps_union, map_fmap_union. Qed.

Lemma arrangeChildren_translate rec dx dy direction x0 y0 width height
    unitSize children :
  Forall (λ c, ∀ x y w h,
            rec c (add x dx) (add y dy) w h
            = translateAll dx dy <$> rec c x y w h) children →
  ∀ extraSize offset result,
    arrangeChildren rec direction (add x0 dx) (add y0 dy) width height
      unitSize children extraSize offset (translateAll dx dy result)
    = translateAll dx dy
        <$> arrangeChildren rec direction x0 y0 width height unitSize
              children extraSize offset result.
Proof.
  induction 1 as [|c children Hc _ IH]; intros e o r; [done|].
  simpl. destruct (childBoxSize unitSize e c) as [b e'].
  destruct (direction =? COLUMN).
  - rewrite (add_swap x0 dx o), Hc.
    destruct (rec c (add x0 o) y0 b height) as [m|]; simpl; [|done].
    unfold translateAll at 1 2. rewrite mergeDimensionMaps_fmap. apply IH.
  - rewrite (add_swap y0 dy o), Hc.
    destruct (rec c x0 (add y0 o) width b) as [m|]; simpl; [|done].
    unfold translateAll at 1 2. rewrite mergeDimensionMaps_fmap. apply IH.
Qed.

(** ** X5 *)

(** X5: laying a box out at an origin moved by [(dx, dy)] gives the same
    views, each rectangle moved by [(dx, dy)]: the sizes of the views
    depend on the width and the height only, for every box tree and every
    allocation (sums are Go's, wrapping ones). *)
Theorem layout_moves_with_origin (dx dy : Z) (root : Box) :
  ∀ x0 y0 width height,
    ArrangeViews root (add x0 dx) (add y0 dy) width height
    = translateAll dx dy <$> ArrangeViews root x0 y0 width height.
Proof.
  induction root as [root IH] using Box_children_ind. intros x0 y0 width height.
  rewrite !ArrangeViews_unfold. cbn zeta. specialize (IH width height).
  destruct (getChildren root width height) as [|c cs].
  - unfold translateAll. case_decide; simpl; [by rewrite fmap_empty|].
    rewrite map_fmap_singleton. unfold translate. simpl.
    by rewrite !corner_translate.
  - destruct (sumChildren (c :: cs)) as [reservedSize totalWeight].
    destruct (unitAndExtra _ _) as [[u e]|]; [|done].
    rewrite <- (fmap_empty (translate dx dy)) at 1.
    by apply arrangeChildren_translate.
Qed.

Lemma transpose_getChildren b width height :
  getChildren (transpose b) height width
  = map transpose (getChildren b width height).
Proof. destruct b as [d cd ch [f|] v sz wt]; reflexivity. Qed.

Lemma transpose_getDirection b width height :
  getDirection (transpose b) height width
  = flipDirection (getDirection b width height).
Proof. destruct b as [d [f|] ch cc v sz wt]; reflexivity. Qed.

Lemma transpose_fields b :
  ViewName (transpose b) = ViewName b
  ∧ Size (transpose b) = Size b
  ∧ Weight (transpose b) = Weight b.
Proof. by destruct b. Qed.

Lemma transpose_childBoxSize unitSize extraSize c :
  childBoxSize unitSize extraSize (transpose c)
  = childBoxSize unitSize extraSize c.
Proof.
  destruct (transpose_fields c) as (_ & Hs & Hw).
  unfold childBoxSize, isStatic. by rewrite Hs, Hw.
Qed.

Lemma transpose_sumChildren children :
  sumChildren (map transpose children) = sumChildren children.
Proof.
  unfold sumChildren. generalize (0, 0).
  induction children as [|c children IH]; intros [r t]; [done|].
  simpl. destruct (transpose_fields c) as (_ & -> & ->). apply IH.
Qed.

Lemma flipDirection_COLUMN direction :
  (flipDirection direction =? COLUMN) = negb (direction =? COLUMN).
Proof. unfold flipDirection. by destruct (direction =? COLUMN). Qed.

Lemma arrangeChildren_transpose rec direction x0 y0 width height unitSize
    children :
  Forall (λ c, ∀ x y w h,
            rec (transpose c) y x h w = swapAll <$> rec c x y w h) children →
  ∀ extraSize offset result,
    arrangeChildren rec (flipDirection direction) y0 x0 height width
      unitSize (map transpose children) extraSize offset (swapAll result)
    = swapAll
        <$> arrangeChildren rec direction x0 y0 width height unitSize
              children extraSize offset result.
Proof.
  induction 1 as [|c children Hc _ IH]; intros e o r; [done|].
  simpl. rewrite transpose_childBoxSize, flipDirection_COLUMN.
  destruct (childBoxSize unitSize e c) as [b e'].
  destruct (direction =? COLUMN); simpl; rewrite Hc.
  - destruct (rec c (add x0 o) y0 b height) as [m|]; simpl; [|done].
    unfold swapAll at 1 2. rewrite mergeDimensionMaps_fmap. apply IH.
  - destruct (rec c x0 (add y0 o) width b) as [m|]; simpl; [|done].
    unfold swapAll at 1 2. rewrite mergeDimensionMaps_fmap. apply IH.
Qed.

(** ** X6 *)

(** X6: the two axes are treated alike. Laying out the transposed tree
    (directions flipped, every direction other than COLUMN counting as
    ROW, functions given the height first) with the coordinates and the
    sizes exchanged gives the same views with the axes of each rectangle
    exchanged. *)
Theorem layout_transposes (root : Box) :
  ∀ x0 y0 width height,
    ArrangeViews (transpose root) y0 x0 height width
    = swapAll <$> ArrangeViews root x0 y0 width height.
Proof.
  induction root as [root IH] using Box_children_ind. intros x0 y0 width height.
  rewrite !ArrangeViews_unfold. cbn zeta. specialize (IH width height).
  rewrite transpose_getChildren, transpose_getDirection, flipDirection_COLUMN.
  destruct (transpose_fields root) as (-> & _ & _).
  destruct (getChildren root width height) as [|c cs].
  - unfold swapAll. simpl. case_decide; simpl; [by rewrite fmap_empty|].
    by rewrite map_fmap_singleton.
  - change (map transpose (c :: cs)) with (transpose c :: map transpose cs).
    cbn iota.
    change (transpose c :: map transpose cs) with (map transpose (c :: cs)).
    rewrite transpose_sumChildren.
    destruct (sumChildren (c :: cs)) as [reservedSize totalWeight].
    assert (Hsize : (if negb (getDirection root width height =? COLUMN)
                     then height else width)
                    = (if getDirection root width height =? COLUMN
                       then width else height))
      by (by destruct (_ =? COLUMN)).
    rewrite Hsize.
    destruct (unitAndExtra _ _) as [[u e]|]; [|done].
    rewrite <- (fmap_empty swapDims) at 1.
    by apply arrangeChildren_transpose.
Qed.

(** ** Where the entries of the result come from *)

Lemma merge_lookup_Some (a b : gmap string Dimensions) k v :
  mergeDimensionMaps a b !! k = Some v → b !! k = Some v ∨ a !! k = Some v.
Proof.
  rewrite mergeDimensionMaps_union, lookup_union_Some_raw. tauto.
Qed.

Lemma arrangeChildren_all (P : string → Dimensions → Prop)
    rec direction x0 y0 width height unitSize children :
  Forall (λ c, ∀ x y w h m k v,
            rec c x y w h = Some m → m !! k = Some v → P k v) children →
  ∀ extraSize offset result m,
    (∀ k v, result !! k = Some v → P k v) →
    arrangeChildren rec direction x0 y0 width height unitSize
      children extraSize offset result = Some m →
    ∀ k v, m !! k = Some v → P k v.
Proof.
  induction 1 as [|c children Hc _ IH]; intros e o r m Hr Hm; simpl in Hm.
  - by injection Hm as <-.
  - destruct (childBoxSize unitSize e c) as [b e'].
    destruct (if direction =? COLUMN then _ else _) as [mc|] eqn:Hcall;
      [|done].
    refine (IH _ _ _ _ _ Hm).
    intros k v [Hk|Hk]%merge_lookup_Some; [|by apply Hr].
    destruct (direction =? COLUMN); by apply (Hc _ _ _ _ _ _ _ Hcall).
Qed.

Lemma publishedBy_child root width height c k v :
  c ∈ getChildren root width height → publishedBy c k v → publishedBy root k v.
Proof.
  intros Hc (Hk & l & x & y & w & h & Hl & Hrest).
  split; [done|]. exists l, x, y, w, h. split; [|done].
  by apply (inTree_child l root width height c).
Qed.

Lemma ArrangeViews_published root :
  ∀ x0 y0 width height m k v,
    ArrangeViews root x0 y0 width height = Some m →
    m !! k = Some v → publishedBy root k v.
Proof.
  induction root as [root IH] using Box_children_ind.
  intros x0 y0 width height m k v Hm Hk.
  destruct (getChildren root width height) as [|c cs] eqn:Hcs.
  - rewrite ArrangeViews_leaf in Hm by done.
    case_decide as Hname; injection Hm as <-; [by rewrite lookup_empty in Hk|].
    apply lookup_singleton_Some in Hk as [<- <-].
    split; [done|]. exists root, x0, y0, width, height.
    split_and!; (done || constructor).
  - rewrite ArrangeViews_node in Hm by (by rewrite Hcs). cbn zeta in Hm.
    destruct (unitAndExtra _ _) as [[u e]|]; [|done].
    revert k v Hk.
    refine (arrangeChildren_all (publishedBy root) _ _ _ _ _ _ _ _ _
              _ _ _ _ _ Hm); [|intros k v; by rewrite lookup_empty].
    specialize (IH width height). rewrite Forall_forall in *.
    intros c' Hin x y w h mc k v Hmc Hk.
    apply (publishedBy_child root width height c'); [done|].
    by apply (IH c' Hin x y w h mc).
Qed.

(** ** X7 *)

(** X7: every entry of the mapping [ArrangeViews] returns is the rectangle
    [(x, y, x+w-1, y+h-1)] of some allocation of a box of the tree that has
    the entry's key as view name and had no children for that allocation;
    the empty name is never a key, so a box without a view name adds no
    entry. *)
Theorem views_come_from_leaves (root : Box) (x0 y0 width height : Z)
    (m : gmap string Dimensions) :
  ArrangeViews root x0 y0 width height = Some m →
  m !! "" = None
  ∧ ∀ k v, m !! k = Some v → publishedBy root k v.
Proof.
  intros Hm.
  assert (Hall : ∀ k v, m !! k = Some v → publishedBy root k v)
    by (intros k v; by apply (ArrangeViews_published root x0 y0 width height)).
  split; [|done].
  destruct (m !! "") as [v|] eqn:Hk; [|done].
  by destruct (Hall "" v Hk) as [? _].
Qed.

Lemma views_come_from_leaves_witness :
  let root := node COLUMN [leaf "a" 10 0; leaf "" 0 1; leaf "b" 0 1] in
  ∃ m,
    ArrangeViews root 0 0 40 5 = Some m
    ∧ m !! "" = None
    ∧ publishedBy root "b" {| X0 := 25; Y0 := 0; X1 := 39; Y1 := 4 |}.
Proof.
  destruct (ArrangeViews_is_Some
              (node COLUMN [leaf "a" 10 0; leaf "" 0 1; leaf "b" 0 1])
              0 0 40 5) as [m Hm].
  destruct (views_come_from_leaves _ _ _ _ _ _ Hm) as [Hempty Hall].
  exists m. split_and!; [done..|].
  apply Hall. vm_compute in Hm. injection Hm as <-. by vm_compute.
Defined.

(** ** Views stay inside the allocation *)

Lemma sumZ_nonneg (l : list Z) : Forall (λ y, 0 ≤ y) l → 0 ≤ sumZ l.
Proof. induction 1 as [|y l ? ? IH]; [done|]. rewrite sumZ_cons. lia. Qed.

Lemma inside_weaken x0 y0 width height x y w h d :
  x0 ≤ x → x + w ≤ x0 + width → y0 ≤ y → y + h ≤ y0 + height →
  inside x y w h d → inside x0 y0 width height d.
Proof. unfold inside. lia. Qed.

Section children_inside.
Variable rec : Box → Z → Z → Z → Z → option (gmap string Dimensions).
Variables direction x0 y0 width height unitSize : Z.
Hypothesis width_pos : 0 ≤ width.
Hypothesis height_pos : 0 ≤ height.
Hypothesis x_range : in_int (x0 - 1) ∧ in_int (x0 + width).
Hypothesis y_range : in_int (y0 - 1) ∧ in_int (y0 + height).
Hypothesis available_bound :
  (if direction =? COLUMN then width else height) ≤ 2 ^ 53.

Lemma arrangeChildren_inside children :
  Forall (λ c, ∀ x y w h m,
            fits c w h → 0 ≤ w → 0 ≤ h →
            in_int (x - 1) ∧ in_int (x + w) →
            in_int (y - 1) ∧ in_int (y + h) →
            rec c x y w h = Some m →
            ∀ k v, m !! k = Some v → inside x y w h v) children →
  ∀ extraSize offset result m,
    Forall2 (λ c boxSize,
               if direction =? COLUMN
               then fits c boxSize height else fits c width boxSize)
            children (boxSizes unitSize extraSize children) →
    Forall (λ boxSize, 0 ≤ boxSize) (boxSizes unitSize extraSize children) →
    0 ≤ offset →
    offset + sumZ (boxSizes unitSize extraSize children)
    ≤ (if direction =? COLUMN then width else height) →
    (∀ k v, result !! k = Some v → inside x0 y0 width height v) →
    arrangeChildren rec direction x0 y0 width height unitSize
      children extraSize offset result = Some m →
    ∀ k v, m !! k = Some v → inside x0 y0 width height v.
Proof.
  induction 1 as [|c children Hc _ IH];
    intros e o r m Hfits Hpos Ho Hsum Hr Hm; simpl in Hm.
  - by injection Hm as <-.
  - rewrite boxSizes_cons in Hfits, Hpos, Hsum.
    destruct (childBoxSize unitSize e c) as [b e']. cbn [fst snd] in *.
    apply Forall2_cons in Hfits as [Hfit Hfits].
    apply Forall_cons in Hpos as [Hb Hpos].
    pose proof (sumZ_nonneg _ Hpos) as Hrest.
    rewrite sumZ_cons in Hsum.
    destruct (if direction =? COLUMN then _ else _) as [mc|] eqn:Hcall
      in Hm; [|done].
    assert (Hnext : add o b = o + b)
      by (apply add_id; destruct (direction =? COLUMN); in_range).
    rewrite Hnext in Hm.
    refine (IH _ _ _ _ Hfits Hpos _ _ _ Hm); [lia|lia|].
    intros k v [Hk|Hk]%merge_lookup_Some; [|by apply (Hr k)].
    destruct (direction =? COLUMN).
    + assert (Hx : add x0 o = x0 + o) by (apply add_id; in_range).
      rewrite Hx in Hcall.
      apply (inside_weaken x0 y0 width height (x0 + o) y0 b height);
        [lia..|].
      apply (Hc _ _ _ _ mc Hfit Hb height_pos) with (k := k);
        (done || in_range).
    + assert (Hy : add y0 o = y0 + o) by (apply add_id; in_range).
      rewrite Hy in Hcall.
      apply (inside_weaken x0 y0 width height x0 (y0 + o) width b);
        [lia..|].
      apply (Hc _ _ _ _ mc Hfit width_pos Hb) with (k := k);
        (done || in_range).
Qed.
End children_inside.

Lemma arrangeChildren_direction rec d1 d2 x0 y0 width height unitSize children :
  (d1 =? COLUMN) = (d2 =? COLUMN) →
  ∀ extraSize offset result,
    arrangeChildren rec d1 x0 y0 width height unitSize
      children extraSize offset result
    = arrangeChildren rec d2 x0 y0 width height unitSize
        children extraSize offset result.
Proof.
  intros Hd. induction children as [|c children IH]; intros e o r; [done|].
  simpl. rewrite Hd. destruct (childBoxSize unitSize e c) as [b e'].
  destruct (if d2 =? COLUMN then _ else _); [apply IH|done].
Qed.

Lemma partition_fit_sum availableSize children sizes :
  childrenFit availableSize children →
  partition availableSize children = Some sizes →
  ∃ unitSize extraSize,
    sizes = boxSizes unitSize extraSize children
    ∧ unitAndExtra
        (remainingSizeOf availableSize (reservedSizeOf children))
        (totalWeightOf children) = Some (unitSize, extraSize)
    ∧ Forall (λ boxSize, 0 ≤ boxSize) sizes
    ∧ sumZ sizes ≤ availableSize.
Proof.
  intros (Hconv & HS & HW & Ha) Hpart.
  pose proof (conventional_sizes _ Hconv) as HS0.
  destruct (partition_fit availableSize children Hconv)
    as (u & e & Hp & Hue & Hu & He & HeW & _ & Hsum); [in_range..|].
  rewrite Hp in Hpart. injection Hpart as <-.
  assert (Hfit : u * sumZ (Weight <$> children) + e ≤ int_max).
  { rewrite Hsum. destruct (0 <? _); in_range. }
  exists u, e. split_and!; [done|done|by apply boxSizes_nonneg|].
  rewrite boxSizes_sum by done. destruct (0 <? _); lia.
Qed.

Lemma ArrangeViews_inside root :
  ∀ x0 y0 width height m,
    fits root width height → 0 ≤ width → 0 ≤ height →
    in_int (x0 - 1) ∧ in_int (x0 + width) →
    in_int (y0 - 1) ∧ in_int (y0 + height) →
    ArrangeViews root x0 y0 width height = Some m →
    ∀ k v, m !! k = Some v → inside x0 y0 width height v.
Proof.
  induction root as [root IH] using Box_children_ind.
  intros x0 y0 width height m Hfit Hw Hh Hx Hy Hm.
  specialize (IH width height).
  inversion Hfit as [b w h Hleaf|b w h sizes Hne Hdir Hcf Hpart Hall
                    |b w h sizes Hne Hdir Hcf Hpart Hall]; subst.
  - rewrite ArrangeViews_leaf in Hm by done. intros k v Hk.
    case_decide; injection Hm as <-; [by rewrite lookup_empty in Hk|].
    apply lookup_singleton_Some in Hk as [_ <-].
    unfold inside. simpl. rewrite !sub_add_1, !wrap_id by in_range. lia.
  - rewrite ArrangeViews_node in Hm by done. cbn zeta in Hm.
    rewrite Hdir in Hm. change (COLUMN =? COLUMN) with true in Hm.
    cbn iota in Hm.
    destruct (partition_fit_sum _ _ _ Hcf Hpart)
      as (u & e & -> & Hue & Hpos & Hsum).
    rewrite Hue in Hm.
    refine (arrangeChildren_inside ArrangeViews COLUMN x0 y0 width height u
              Hw Hh Hx Hy _ _ IH e 0 ∅ m Hall Hpos _ _ _ Hm);
      [apply Hcf|done|simpl; lia|intros k v; by rewrite lookup_empty].
  - rewrite ArrangeViews_node in Hm by done. cbn zeta in Hm.
    apply Z.eqb_neq in Hdir. rewrite Hdir in Hm.
    destruct (partition_fit_sum _ _ _ Hcf Hpart)
      as (u & e & -> & Hue & Hpos & Hsum).
    rewrite Hue in Hm.
    rewrite (arrangeChildren_direction _ _ ROW) in Hm by (by rewrite Hdir).
    refine (arrangeChildren_inside ArrangeViews ROW x0 y0 width height u
              Hw Hh Hx Hy _ _ IH e 0 ∅ m Hall Hpos _ _ _ Hm);
      [apply Hcf|done|simpl; lia|intros k v; by rewrite lookup_empty].
Qed.

(** ** X8 *)

(** X8: when, in the layout of a box in a width and a height that are not
    negative, the children of every box follow the sizing convention and
    have static sizes that fit the size the box partitions (at most 2^53),
    and the allocation lies in [int], every rectangle of the result is
    well formed and lies inside the allocation: no view reaches out of its
    box. *)
Theorem views_stay_inside (root : Box) (x0 y0 width height : Z)
    (m : gmap string Dimensions) :
  fits root width height →
  0 ≤ width → 0 ≤ height →
  in_int (x0 - 1) → in_int (x0 + width) →
  in_int (y0 - 1) → in_int (y0 + height) →
  ArrangeViews root x0 y0 width height = Some m →
  ∀ k v, m !! k = Some v →
    x0 ≤ X0 v ∧ X0 v - 1 ≤ X1 v ∧ X1 v ≤ x0 + width - 1
    ∧ y0 ≤ Y0 v ∧ Y0 v - 1 ≤ Y1 v ∧ Y1 v ≤ y0 + height - 1.
Proof.
  intros Hfit Hw Hh Hx0 Hx1 Hy0 Hy1 Hm k v Hk.
  by apply (ArrangeViews_inside root x0 y0 width height m Hfit Hw Hh
              (conj Hx0 Hx1) (conj Hy0 Hy1) Hm k v).
Qed.

Lemma views_stay_inside_witness :
  let inner := mkBox COLUMN None [leaf "l" 0 1; leaf "r" 0 2] None "" 0 1 in
  let root := node ROW [leaf "top" 3 0; inner] in
  fits root 30 10
  ∧ ∃ m,
      ArrangeViews root 5 2 30 10 = Some m
      ∧ ∀ k v, m !! k = Some v →
          5 ≤ X0 v ∧ X0 v - 1 ≤ X1 v ∧ X1 v ≤ 5 + 30 - 1
          ∧ 2 ≤ Y0 v ∧ Y0 v - 1 ≤ Y1 v ∧ Y1 v ≤ 2 + 10 - 1.
Proof.
  assert (Hfit : fits (node ROW [leaf "top" 3 0;
                   mkBox COLUMN None [leaf "l" 0 1; leaf "r" 0 2] None "" 0 1])
                   30 10).
  { apply (fits_row _ 30 10 [3; 7]); [done|done| |by vm_compute|].
    - split_and!; [|by vm_compute..].
      repeat constructor; unfold conventional; simpl; lia.
    - constructor; [by apply fits_leaf|]. constructor; [|constructor].
      apply (fits_column _ 30 7 [10; 20]); [done|done| |by vm_compute|].
      + split_and!; [|by vm_compute..].
        repeat constructor; unfold conventional; simpl; lia.
      + constructor; [by apply fits_leaf|].
        constructor; [by apply fits_leaf|constructor]. }
  split; [exact Hfit|].
  destruct (ArrangeViews_is_Some
              (node ROW [leaf "top" 3 0;
                 mkBox COLUMN None [leaf "l" 0 1; leaf "r" 0 2] None "" 0 1])
              5 2 30 10) as [m Hm].
  exists m. split; [exact Hm|].
  apply (views_stay_inside _ 5 2 30 10 m Hfit);
    [lia|lia|in_range|in_range|in_range|in_range|exact Hm].
Defined.

(** ** A box whose children have no children *)

Lemma namesOf_cons c children :
  namesOf (c :: children)
  = if decide (ViewName c = "") then namesOf children
    else ViewName c :: namesOf children.
Proof.
  unfold namesOf. rewrite fmap_cons, filter_cons.
  by destruct (decide (ViewName c = "")), (decide (ViewName c ≠ "")).
Qed.

Lemma arrangeChildren_leaves direction x0 y0 width height unitSize children :
  Forall (λ c, ∀ w h, getChildren c w h = []) children →
  NoDup (namesOf children) →
  ∀ extraSize offset result,
    ∃ m,
      arrangeChildren ArrangeViews direction x0 y0 width height unitSize
        children extraSize offset result = Some m
      ∧ (∀ k, k ∉ namesOf children → m !! k = result !! k)
      ∧ ∀ i c,
          children !! i = Some c → ViewName c ≠ "" →
          ∃ off boxSize,
            offsetsFrom offset (boxSizes unitSize extraSize children) !! i
            = Some off
            ∧ boxSizes unitSize extraSize children !! i = Some boxSize
            ∧ m !! ViewName c
              = Some (childRect direction x0 y0 width height off boxSize).
Proof.
  induction 1 as [|c children Hc _ IH]; intros Hnd e o r.
  - exists r. split_and!; [done|done|]. intros i c Hi. done.
  - rewrite namesOf_cons in Hnd. rewrite boxSizes_cons.
    cbn [arrangeChildren].
    destruct (childBoxSize unitSize e c) as [b e']. cbn [fst snd].
    assert (Hcall :
      (if direction =? COLUMN
       then ArrangeViews c (add x0 o) y0 b height
       else ArrangeViews c x0 (add y0 o) width b)
      = if decide (ViewName c = "") then Some ∅
        else Some {[ ViewName c
                     := childRect direction x0 y0 width height o b ]}).
    { unfold childRect. destruct (direction =? COLUMN);
        by rewrite ArrangeViews_leaf by apply Hc. }
    rewrite Hcall. rewrite namesOf_cons.
    destruct (decide (ViewName c = "")) as [Hname|Hname].
    + cbn iota.
      replace (mergeDimensionMaps r ∅) with r
        by (by rewrite mergeDimensionMaps_union, (left_id_L ∅ (∪))).
      destruct (IH Hnd e' (add o b) r) as (m & Hm & Hother & Hnamed).
      exists m. split_and!; [done|done|].
      intros [|i] ci Hi Hci; simpl in Hi.
      * injection Hi as ->. done.
      * apply (Hnamed i ci Hi Hci).
    + cbn iota. rewrite merge_singleton.
      apply NoDup_cons in Hnd as [Hfresh Hnd].
      destruct (IH Hnd e' (add o b)
                  (<[ViewName c
                      := childRect direction x0 y0 width height o b]> r))
        as (m & Hm & Hother & Hnamed).
      exists m. split_and!; [done| |].
      * intros k Hk. apply not_elem_of_cons in Hk as [Hk1 Hk2].
        by rewrite Hother, lookup_insert_ne.
      * intros [|i] ci Hi Hci; simpl in Hi.
        -- injection Hi as ->. exists o, b. split_and!; [done|done|].
           by rewrite Hother, lookup_insert_eq.
        -- apply (Hnamed i ci Hi Hci).
Qed.

(** ** X9 *)

(** X9: in a box whose children have no children and bear distinct view
    names (the empty name apart), the result holds, for each named child,
    exactly the rectangle that starts at the sum of the extents of the
    children before it along the partitioned axis, has the child's extent
    along that axis and spans the box on the other axis; it holds no other
    key. Sums are Go's, wrapping ones. *)
Theorem leaf_children_layout (root : Box) (x0 y0 width height : Z) :
  let children := getChildren root width height in
  let direction := getDirection root width height in
  let availableSize := if direction =? COLUMN then width else height in
  children ≠ [] →
  Forall (λ c, ∀ w h, getChildren c w h = []) children →
  NoDup (namesOf children) →
  ∃ sizes m,
    partition availableSize children = Some sizes
    ∧ ArrangeViews root x0 y0 width height = Some m
    ∧ (∀ k, k ∉ namesOf children → m !! k = None)
    ∧ ∀ i c boxSize,
        children !! i = Some c → sizes !! i = Some boxSize →
        ViewName c ≠ "" →
        m !! ViewName c
        = Some (childRect direction x0 y0 width height
                  (wrap (sumZ (take i sizes))) boxSize).
Proof.
  intros children direction availableSize Hne Hleaves Hnd.
  rewrite ArrangeViews_node, partition_unfold by done. cbn zeta.
  fold children direction availableSize.
  destruct (unitAndExtra_is_Some
              (remainingSizeOf availableSize (reservedSizeOf children))
              (totalWeightOf children)) as [[u e] ->].
  destruct (arrangeChildren_leaves direction x0 y0 width height u children
              Hleaves Hnd e 0 ∅) as (m & Hm & Hother & Hnamed).
  exists (boxSizes u e children), m. split_and!; [done|done| |].
  - intros k Hk. rewrite Hother by done. apply lookup_empty.
  - intros i c s Hi Hs Hname.
    destruct (Hnamed i c Hi Hname) as (off & b & Hoff & Hb & Hlook).
    rewrite Hs in Hb. injection Hb as <-.
    rewrite <- wrap_0 in Hoff at 1.
    rewrite offsetsFrom_lookup in Hoff by (by apply lookup_lt_Some in Hs).
    injection Hoff as <-. by rewrite Z.add_0_l in Hlook.
Qed.

Lemma leaf_children_layout_witness :
  let root := node COLUMN [leaf "a" 10 0; leaf "" 0 1; leaf "b" 0 1] in
  NoDup (namesOf (getChildren root 40 5))
  ∧ ∃ m,
      ArrangeViews root 2 3 40 5 = Some m
      ∧ m !! "b" = Some {| X0 := 27; Y0 := 3; X1 := 41; Y1 := 7 |}
      ∧ m !! "c" = None.
Proof.
  assert (Hnd : NoDup (namesOf (getChildren
             (node COLUMN [leaf "a" 10 0; leaf "" 0 1; leaf "b" 0 1]) 40 5)))
    by (apply (bool_decide_unpack _); by vm_compute).
  split; [exact Hnd|].
  destruct (leaf_children_layout
              (node COLUMN [leaf "a" 10 0; leaf "" 0 1; leaf "b" 0 1])
              2 3 40 5) as (sizes & m & Hp & Hm & Hother & Hnamed);
    [done| |exact Hnd|].
  { repeat constructor. }
  vm_compute in Hp. injection Hp as <-.
  exists m. split_and!; [exact Hm| |].
  - exact (Hnamed 2%nat (leaf "b" 0 1) 15 eq_refl eq_refl ltac:(done)).
  - apply Hother. apply (bool_decide_unpack _). by vm_compute.
Defined.

(** ** Views of different children *)

Lemma sumZ_take_S (l : list Z) i x :
  l !! i = Some x → sumZ (take (S i) l) = sumZ (take i l) + x.
Proof.
  intros Hi. rewrite (take_S_r _ _ _ Hi), sumZ_app. simpl. lia.
Qed.

Lemma sumZ_take_mono (l : list Z) i j :
  Forall (λ y, 0 ≤ y) l → (i ≤ j)%nat →
  sumZ (take i l) ≤ sumZ (take j l).
Proof.
  intros Hl Hij. induction Hij as [|j Hij IH]; [done|].
  etrans; [exact IH|].
  destruct (l !! j) as [x|] eqn:Hj.
  - rewrite (sumZ_take_S l j x Hj).
    rewrite Forall_lookup in Hl. specialize (Hl j x Hj). simpl in Hl. lia.
  - apply lookup_ge_None in Hj. by rewrite !take_ge by lia.
Qed.

Lemma sumZ_take_total (l : list Z) i :
  Forall (λ y, 0 ≤ y) l → sumZ (take i l) ≤ sumZ l.
Proof.
  intros Hl. rewrite <- (take_drop i l) at 2. rewrite sumZ_app.
  pose proof (sumZ_nonneg (drop i l) (Forall_drop _ _ _ Hl)). lia.
Qed.

(** The part of the allocation given to the child at position [i]. *)
Lemma child_slot (sizes : list Z) availableSize i boxSize :
  Forall (λ y, 0 ≤ y) sizes → sumZ sizes ≤ availableSize →
  sizes !! i = Some boxSize →
  0 ≤ sumZ (take i sizes)
  ∧ 0 ≤ boxSize
  ∧ sumZ (take i sizes) + boxSize ≤ availableSize.
Proof.
  intros Hpos Hsum Hi.
  pose proof (sumZ_nonneg _ (Forall_take _ i _ Hpos)).
  pose proof (sumZ_take_total sizes (S i) Hpos) as Htot.
  rewrite (sumZ_take_S sizes i boxSize Hi) in Htot.
  rewrite Forall_lookup in Hpos. specialize (Hpos i boxSize Hi).
  simpl in Hpos. lia.
Qed.

(** ** X10 *)

(** X10: under the conditions of X8, the views of two different children
    of a box never overlap: in the calls made for the children at
    positions [i < j] (each at the offset that is the sum of the extents
    before it), every rectangle of the earlier child ends before every
    rectangle of the later child begins, along the partitioned axis. *)
Theorem sibling_views_apart (root : Box) (x0 y0 width height : Z)
    (sizes : list Z) (i j : nat) (ci cj : Box) (si sj : Z)
    (mi mj : gmap string Dimensions) :
  let children := getChildren root width height in
  let column := getDirection root width height =? COLUMN in
  let oi := wrap (sumZ (take i sizes)) in
  let oj := wrap (sumZ (take j sizes)) in
  fits root width height →
  children ≠ [] →
  0 ≤ width → 0 ≤ height →
  in_int (x0 - 1) → in_int (x0 + width) →
  in_int (y0 - 1) → in_int (y0 + height) →
  partition (if column then width else height) children = Some sizes →
  (i < j)%nat →
  children !! i = Some ci → children !! j = Some cj →
  sizes !! i = Some si → sizes !! j = Some sj →
  (if column then ArrangeViews ci (add x0 oi) y0 si height
   else ArrangeViews ci x0 (add y0 oi) width si) = Some mi →
  (if column then ArrangeViews cj (add x0 oj) y0 sj height
   else ArrangeViews cj x0 (add y0 oj) width sj) = Some mj →
  ∀ k1 v1 k2 v2,
    mi !! k1 = Some v1 → mj !! k2 = Some v2 →
    if column then X1 v1 < X0 v2 else Y1 v1 < Y0 v2.
Proof.
  intros children column oi oj Hfit Hne Hw Hh Hx0 Hx1 Hy0 Hy1 Hpart Hij
    Hi Hj Hsi Hsj Hmi Hmj k1 v1 k2 v2 Hk1 Hk2.
  assert (Hslots :
    ∀ availableSize,
      childrenFit availableSize children →
      partition availableSize children = Some sizes →
      availableSize ≤ 2 ^ 53
      ∧ oi = sumZ (take i sizes) ∧ oj = sumZ (take j sizes)
      ∧ 0 ≤ oi ∧ 0 ≤ si ∧ oi + si ≤ oj
      ∧ 0 ≤ sj ∧ oj + sj ≤ availableSize).
  { intros a Hcf Hp.
    destruct (partition_fit_sum _ _ _ Hcf Hp) as (u & e & _ & _ & Hpos & Hsum).
    destruct (child_slot sizes a i si Hpos Hsum Hsi) as (? & ? & ?).
    destruct (child_slot sizes a j sj Hpos Hsum Hsj) as (? & ? & ?).
    pose proof (sumZ_take_mono sizes (S i) j Hpos Hij) as Hmono.
    rewrite (sumZ_take_S sizes i si Hsi) in Hmono.
    assert (a ≤ 2 ^ 53) by apply Hcf.
    unfold oi, oj. rewrite !wrap_id by in_range. lia. }
  unfold column in *. clear column.
  inversion Hfit as [b w h Hleaf|b w h sizes' Hne' Hdir Hcf Hpart' Hall
                    |b w h sizes' Hne' Hdir Hcf Hpart' Hall]; subst.
  - done.
  - fold children in Hcf, Hpart', Hall. rewrite Hdir in *.
    change (COLUMN =? COLUMN) with true in *. cbn iota in *.
    rewrite Hpart in Hpart'. injection Hpart' as <-.
    destruct (Hslots width Hcf Hpart) as (? & Hoi & Hoj & ? & ? & ? & ? & ?).
    rewrite add_id in Hmi, Hmj by in_range.
    pose proof (Forall2_lookup_lr _ _ _ _ _ _ Hall Hi Hsi) as Hfi.
    pose proof (Forall2_lookup_lr _ _ _ _ _ _ Hall Hj Hsj) as Hfj.
    pose proof (ArrangeViews_inside ci (x0 + oi) y0 si height mi Hfi
                  ltac:(lia) Hh ltac:(in_range) (conj Hy0 Hy1) Hmi k1 v1 Hk1)
      as Hin1.
    pose proof (ArrangeViews_inside cj (x0 + oj) y0 sj height mj Hfj
                  ltac:(lia) Hh ltac:(in_range) (conj Hy0 Hy1) Hmj k2 v2 Hk2)
      as Hin2.
    unfold inside in *. lia.
  - fold children in Hcf, Hpart', Hall. apply Z.eqb_neq in Hdir.
    rewrite Hdir in *.
    rewrite Hpart in Hpart'. injection Hpart' as <-.
    destruct (Hslots height Hcf Hpart) as (? & Hoi & Hoj & ? & ? & ? & ? & ?).
    rewrite add_id in Hmi, Hmj by in_range.
    pose proof (Forall2_lookup_lr _ _ _ _ _ _ Hall Hi Hsi) as Hfi.
    pose proof (Forall2_lookup_lr _ _ _ _ _ _ Hall Hj Hsj) as Hfj.
    pose proof (ArrangeViews_inside ci x0 (y0 + oi) width si mi Hfi
                  Hw ltac:(lia) (conj Hx0 Hx1) ltac:(in_range) Hmi k1 v1 Hk1)
      as Hin1.
    pose proof (ArrangeViews_inside cj x0 (y0 + oj) width sj mj Hfj
                  Hw ltac:(lia) (conj Hx0 Hx1) ltac:(in_range) Hmj k2 v2 Hk2)
      as Hin2.
    unfold inside in *. lia.
Qed.

Lemma sibling_views_apart_witness :
  let root := node COLUMN [leaf "a" 10 0; leaf "b" 0 1] in
  let mi : gmap string Dimensions :=
    {[ "a" := {| X0 := 2; Y0 := 3; X1 := 11; Y1 := 7 |} ]} in
  let mj : gmap string Dimensions :=
    {[ "b" := {| X0 := 12; Y0 := 3; X1 := 41; Y1 := 7 |} ]} in
  fits root 40 5
  ∧ partition 40 (getChildren root 40 5) = Some [10; 30]
  ∧ ArrangeViews (leaf "a" 10 0) 2 3 10 5 = Some mi
  ∧ ArrangeViews (leaf "b" 0 1) 12 3 30 5 = Some mj
  ∧ ∀ k1 v1 k2 v2,
      mi !! k1 = Some v1 → mj !! k2 = Some v2 → X1 v1 < X0 v2.
Proof.
  assert (Hfit : fits (node COLUMN [leaf "a" 10 0; leaf "b" 0 1]) 40 5).
  { apply (fits_column _ 40 5 [10; 30]); [done|done| |by vm_compute|].
    - split_and!; [|by vm_compute..].
      repeat constructor; unfold conventional; simpl; lia.
    - constructor; [by apply fits_leaf|].
      constructor; [by apply fits_leaf|constructor]. }
  split_and!; [exact Hfit|by vm_compute..|].
  apply (sibling_views_apart (node COLUMN [leaf "a" 10 0; leaf "b" 0 1])
           2 3 40 5 [10; 30] 0 1 (leaf "a" 10 0) (leaf "b" 0 1) 10 30);
    [exact Hfit|by vm_compute|lia|lia|in_range|in_range|in_range|in_range
    |by vm_compute|lia|reflexivity|reflexivity|reflexivity|reflexivity
    |by vm_compute|by vm_compute].
Defined.

End Boxlayout.
